(** * fill_array_with_rng.cpp: [fillRnd] and the two stream helpers

    A shallow embedding of [src/fill_array_with_rng.cpp].

    - [Traits]: the type-level part of the file (the [is_iterable] trait, the
      template head of [fillRnd], the [disType] alias), as functions on
      descriptions of C++ types.
    - [Mt19937]: [std::mt19937], the engine [fillRnd] constructs.  The engine
      is library code; it is transcribed from the parameters and the
      transition function that the C++ standard fixes for it.
    - [Distribution]: what [fillRnd] needs of [disType]: a constructor taking
      [(min, max)] and a call operator that consumes the engine.
    - [UniformInt]: [std::uniform_int_distribution<int>] over [std::mt19937]
      as libstdc++ implements it, the instance behind the two integer calls
      of [main].
    - [UniformIntegral], [UniformReal]: the same class template for every
      integer type, and [std::uniform_real_distribution] on IEEE 754
      formats, both as libstdc++ implements them.
    - [Instantiation]: the distribution object that [disType] denotes for
      an element type.
    - [fillRnd], [std::generate], the two [operator<<] overloads, and
      [main]. *)

From Stdlib Require Import ZArith Lia SpecFloat.
From stdpp Require Import base option list strings pretty.

Local Open Scope Z_scope.

(** ** Fixed-width unsigned arithmetic *)

(** Reduction of a mathematical integer to an unsigned [w]-bit value. *)
Definition wrap (w : Z) (z : Z) : Z := z mod 2 ^ w.
Arguments wrap : simpl never.

(** ** std::mt19937 *)

Module Mt19937.

(** [mersenne_twister_engine<uint_fast32_t, 32, 624, 397, 31, 0x9908b0df,
    11, 0xffffffff, 7, 0x9d2c5680, 15, 0xefc60000, 18, 1812433253>].
    [uint_fast32_t] is taken to be 64 bits wide, words of the state are
    kept below [2^32] by the engine itself. *)
Definition UIntType_bits : Z := 64.
Definition w : Z := 32.
Definition n : nat := 624.
Definition m : nat := 397.
Definition r : Z := 31.
Definition a : Z := 0x9908b0df.
Definition u : Z := 11.
Definition d : Z := 0xffffffff.
Definition s : Z := 7.
Definition b : Z := 0x9d2c5680.
Definition t : Z := 15.
Definition c : Z := 0xefc60000.
Definition l : Z := 18.
Definition f : Z := 1812433253.

Definition state_size : nat := n.

(** The object: the word array [_M_x] and the position [_M_p]. *)
Record engine : Type := Engine { M_x : list Z; M_p : nat }.

(** [min()] and [max()] of the engine. *)
Definition min : Z := 0.
Definition max : Z := 2 ^ w - 1.

(** One iteration of the loop of [seed]: given [_M_x[i-1]], the value
    stored in [_M_x[i]]. *)
Definition seed_next (prev : Z) (i : nat) : Z :=
  let x := prev in
  let x := Z.lxor x (Z.shiftr x (w - 2)) in
  let x := wrap UIntType_bits (x * f) in
  let x := wrap UIntType_bits (x + Z.of_nat (i mod n)) in
  wrap w x.

(** The loop [for (i = 1; i < state_size; ++i)] of [seed], with [k]
    iterations left; [acc] holds [_M_x[i-1], ..., _M_x[0]]. *)
Fixpoint seed_loop (k : nat) (i : nat) (prev : Z) (acc : list Z) : list Z :=
  match k with
  | O => rev acc
  | S k' =>
      let x := seed_next prev i in
      seed_loop k' (S i) x (x :: acc)
  end.

(** [seed(result_type sd)]; the constructor [mt19937(sd)] calls it.  The
    [int] argument of [fillRnd] reaches it converted to [result_type]. *)
Definition seed (sd : Z) : engine :=
  let sd := wrap UIntType_bits sd in
  let x0 := wrap w sd in
  {| M_x := seed_loop (state_size - 1) 1 x0 [x0]; M_p := state_size |}.

Definition upper_mask : Z := wrap UIntType_bits (Z.shiftl (2 ^ UIntType_bits - 1) r).
Definition lower_mask : Z := Z.lxor (2 ^ UIntType_bits - 1) upper_mask.

(** Body shared by the three parts of [_M_gen_rand]: the new [_M_x[k]],
    from [_M_x[k]], [_M_x[k1]] and [_M_x[km]]. *)
Definition twist (x : list Z) (k k1 km : nat) : list Z :=
  let y := Z.lor (Z.land (x !!! k) upper_mask) (Z.land (x !!! k1) lower_mask) in
  <[k := Z.lxor (Z.lxor (x !!! km) (Z.shiftr y 1))
                (if Z.eqb (Z.land y 1) 0 then 0 else a)]> x.

(** [for (k = 0; k < n - m; ++k)], reading [k + 1] and [k + m]. *)
Fixpoint gen_loop1 (cnt : nat) (k : nat) (x : list Z) : list Z :=
  match cnt with
  | O => x
  | S cnt' => gen_loop1 cnt' (S k) (twist x k (k + 1) (k + m))
  end.

(** [for (k = n - m; k < n - 1; ++k)], reading [k + 1] and [k + (m - n)]. *)
Fixpoint gen_loop2 (cnt : nat) (k : nat) (x : list Z) : list Z :=
  match cnt with
  | O => x
  | S cnt' => gen_loop2 cnt' (S k) (twist x k (k + 1) (k - (n - m)))
  end.

Definition M_gen_rand (e : engine) : engine :=
  let x := gen_loop1 (n - m) 0 (M_x e) in
  let x := gen_loop2 (n - 1 - (n - m)) (n - m) x in
  let x := twist x (n - 1) 0 (m - 1) in
  {| M_x := x; M_p := 0 |}.

(** The tempering of [operator()]. *)
Definition temper (z : Z) : Z :=
  let z := Z.lxor z (Z.land (Z.shiftr z u) d) in
  let z := Z.lxor z (Z.land (wrap UIntType_bits (Z.shiftl z s)) b) in
  let z := Z.lxor z (Z.land (wrap UIntType_bits (Z.shiftl z t)) c) in
  Z.lxor z (Z.shiftr z l).

(** [operator()]: the value returned and the engine afterwards. *)
Definition call (e : engine) : Z * engine :=
  let e := if decide (state_size ≤ M_p e)%nat then M_gen_rand e else e in
  let z := M_x e !!! M_p e in
  (temper z, {| M_x := M_x e; M_p := S (M_p e) |}).

(** A value of the engine's word size. *)
Definition word (z : Z) : Prop := 0 ≤ z < 2 ^ w.

(** The representation invariant of the object: [_M_x] has [state_size]
    words and [_M_p] does not pass its end. *)
Definition valid (e : engine) : Prop :=
  length (M_x e) = state_size ∧ Forall word (M_x e) ∧ (M_p e ≤ state_size)%nat.

(** [k] consecutive calls, outputs in order. *)
Fixpoint calls (k : nat) (e : engine) : list Z * engine :=
  match k with
  | O => ([], e)
  | S k' =>
      let '(z, e) := call e in
      let '(zs, e) := calls k' e in
      (z :: zs, e)
  end.

End Mt19937.

(** ** Stateful computations that may fail to return

    A computation over a state [S] either returns a value and the state
    afterwards, or does not return ([None]): a loop that was still running
    when its iteration budget ran out, or a call outside the precondition of
    a library function. *)

Definition M (S A : Type) : Type := S → option (A * S).

Definition ret {S A : Type} (x : A) : M S A := λ s, Some (x, s).

Definition bind {S A B : Type} (c : M S A) (k : A → M S B) : M S B :=
  λ s, match c s with
       | Some (x, s') => k x s'
       | None => None
       end.

Notation "'let*' x := c 'in' k" := (bind c (λ x, k))
  (at level 10, x name, c at level 100, k at level 200).

(** ** The distribution interface

    What [fillRnd] uses of [disType]: [disType dis(min, max)] and
    [dis(generator)].  The call may change both objects. *)

Class Distribution (V : Type) : Type := {
  dist : Type;
  construct : V → V → dist;
  invoke : dist → Mt19937.engine → option (V * (dist * Mt19937.engine))
}.

(** What the C++ standard promises of a uniform distribution constructed
    with [(a, b)]: the object keeps its two parameters, a call returns a
    value between them when [a ≤ b], and the engine it has drawn from is
    still a well-formed engine.  [representable] holds of the values of the
    element type, [le] is its order. *)
Class UniformContract {V : Type} (le : relation V) (representable : V → Prop)
    (D : Distribution V) : Type := {
  param : dist → V * V;
  param_construct : ∀ a b, param (construct a b) = (a, b);
  invoke_spec : ∀ d g v d' g',
    Mt19937.valid g →
    invoke d g = Some (v, (d', g')) →
    param d' = param d ∧ Mt19937.valid g' ∧
    (representable (param d).1 → representable (param d).2 →
     le (param d).1 (param d).2 →
     le (param d).1 v ∧ le v (param d).2)
}.

(** ** std::uniform_int_distribution<int> over std::mt19937 (libstdc++) *)

Module UniformInt.

(** [result_type] is [int]; [__uctype] is the common type of the engine's
    [result_type] and [unsigned int], 64 bits wide. *)
Definition int_bits : Z := 32.
Definition uctype_bits : Z := 64.

Definition int_min : Z := - 2 ^ (int_bits - 1).
Definition int_max : Z := 2 ^ (int_bits - 1) - 1.

(** The values of type [int]. *)
Definition is_int (z : Z) : Prop := int_min ≤ z ≤ int_max.

(** Conversion of an unsigned value to [int] (two's complement). *)
Definition to_int (z : Z) : Z :=
  (z + 2 ^ (int_bits - 1)) mod 2 ^ int_bits - 2 ^ (int_bits - 1).

Record param_type : Type := Param { M_a : Z; M_b : Z }.

(** The loop [while (__low < __threshold)] of [_S_nd], entered with the
    current [__product]; [fuel] bounds the number of iterations. *)
Fixpoint S_nd_loop (fuel : nat) (range threshold product : Z)
    (g : Mt19937.engine) : option (Z * Mt19937.engine) :=
  let low := wrap 32 product in
  if low <? threshold then
    match fuel with
    | O => None
    | S fuel' =>
        let '(z, g) := Mt19937.call g in
        S_nd_loop fuel' range threshold (wrap 64 (wrap 64 z * wrap 64 range)) g
    end
  else Some (product, g).

(** [_S_nd<uint64_t>(g, range)] with [range] a [uint32_t]: Lemire's method. *)
Definition S_nd (fuel : nat) (range : Z) (g : Mt19937.engine)
    : option (Z * Mt19937.engine) :=
  let '(z, g) := Mt19937.call g in
  let product := wrap 64 (wrap 64 z * wrap 64 range) in
  let low := wrap 32 product in
  match
    (if low <? range then
       let threshold := wrap 32 (- range) mod range in
       S_nd_loop fuel range threshold product g
     else Some (product, g))
  with
  | Some (product, g) => Some (wrap 32 (Z.shiftr product 32), g)
  | None => None
  end.

(** [operator()(urng, param)].  For [std::mt19937] the two
    [if constexpr] tests select the 32-bit [_S_nd] in the downscaling
    branch.  The upscaling branch is reached only when [b < a], which the
    distribution's precondition excludes; no result is defined there. *)
Definition call (fuel : nat) (param : param_type) (urng : Mt19937.engine)
    : option (Z * Mt19937.engine) :=
  let urngmin := wrap uctype_bits Mt19937.min in
  let urngmax := wrap uctype_bits Mt19937.max in
  let urngrange := wrap uctype_bits (urngmax - urngmin) in
  let urange :=
    wrap uctype_bits (wrap uctype_bits (M_b param) - wrap uctype_bits (M_a param)) in
  match
    (if urange <? urngrange then
       let uerange := wrap uctype_bits (urange + 1) in
       let u32erange := wrap 32 uerange in
       S_nd fuel u32erange urng
     else if urngrange <? urange then None
     else
       let '(z, g) := Mt19937.call urng in
       Some (wrap uctype_bits (wrap uctype_bits z - urngmin), g))
  with
  | Some (r, g) =>
      Some (to_int (wrap uctype_bits (r + wrap uctype_bits (M_a param))), g)
  | None => None
  end.

(** The distribution object holds its parameters only; a call leaves it
    as it was. *)
Definition uniform_int_distribution (fuel : nat) : Distribution Z := {|
  dist := param_type;
  construct := Param;
  invoke := λ dis urng,
    match call fuel dis urng with
    | Some (v, urng') => Some (v, (dis, urng'))
    | None => None
    end
|}.

End UniformInt.

(** ** std::generate and fillRnd *)

Section FillRnd.

Context {V : Type} {disType : Distribution V}.

(** [std::generate(first, last, gen)]:
    [for (; first != last; ++first) *first = gen();]
    with [k] the number of positions left before [last]. *)
Fixpoint generate {S : Type} (k : nat) (first : nat) (gen : M S V)
    (arr : list V) : M S (list V) :=
  match k with
  | O => ret arr
  | Datatypes.S k' =>
      let* v := gen in
      generate k' (Datatypes.S first) gen (<[first := v]> arr)
  end.

(** The objects the lambda captures by reference. *)
Definition captures : Type := dist * Mt19937.engine.

(** [[&](){ return dis(generator); }] *)
Definition lambda : M captures V :=
  λ '(dis, generator), invoke dis generator.

(** [fillRnd(arr, min, max, seed)]: the contents of [arr] when the call
    returns. *)
Definition fillRnd (arr : list V) (min max : V) (seed : Z) : option (list V) :=
  let generator := Mt19937.seed seed in
  let dis := construct min max in
  match generate (length arr) 0 lambda arr (dis, generator) with
  | Some (arr', _) => Some arr'
  | None => None
  end.

(** The default argument [int seed=1337]. *)
Definition default_seed : Z := 1337.

(** A call site: the fourth argument may be omitted. *)
Definition fillRnd_call (arr : list V) (min max : V) (seed : option Z)
    : option (list V) :=
  fillRnd arr min max (default default_seed seed).

(** What the specification asks of the contents after a fill: one
    distribution object constructed from the bounds and one engine seeded
    once; one sample per element, each drawn from the objects as the
    previous draw left them, in element order.  [samples n dis generator]
    are the [n] samples, or [None] when a draw does not return. *)
Fixpoint samples (n : nat) (dis : dist) (generator : Mt19937.engine)
    : option (list V) :=
  match n with
  | O => Some []
  | Datatypes.S n' =>
      match invoke dis generator with
      | None => None
      | Some (v, (dis', generator')) =>
          match samples n' dis' generator' with
          | None => None
          | Some vs => Some (v :: vs)
          end
      end
  end.

(** [k] successive results of [gen], in order. *)
Fixpoint draws {S : Type} (k : nat) (gen : M S V) : M S (list V) :=
  match k with
  | O => ret []
  | Datatypes.S k' =>
      let* v := gen in
      let* vs := draws k' gen in
      ret (v :: vs)
  end.

End FillRnd.

(** ** The two integer calls of [main]

    [fillRnd(v, 1, 10, 42)] on the [std::vector<int>] and
    [fillRnd(a, 1, 10, 43)] on the [std::array<int, 10>], with [disType]
    the libstdc++ distribution. *)

Definition main_fill_v (fuel : nat) (v : list Z) : option (list Z) :=
  fillRnd_call (disType := UniformInt.uniform_int_distribution fuel)
    v 1 10 (Some 42).

Definition main_fill_a (fuel : nat) (a : list Z) : option (list Z) :=
  fillRnd_call (disType := UniformInt.uniform_int_distribution fuel)
    a 1 10 (Some 43).

(** ** The stream helpers *)

Module Display.

(** An output stream, as the text written to it so far.  The stream is
    taken in its initial formatting state (no pending field width, default
    flags) and every write succeeds. *)
Definition ostream : Type := string.

Section Helpers.

Context {T : Type}.
(** [out << x] for an element. *)
Variable show : T → string.

(** Assignment through [std::ostream_iterator<T>(out, delim)]. *)
Definition ostream_iterator_assign (delim : string) (out : ostream) (x : T)
    : ostream :=
  (out +:+ show x) +:+ delim.

(** [std::copy(first, last, std::ostream_iterator<T>(out, delim))] over
    the elements [l] of the range. *)
Definition copy (l : list T) (delim : string) (out : ostream) : ostream :=
  foldl (ostream_iterator_assign delim) out l.

(** [operator<<(std::ostream&, const std::vector<T>&)] *)
Definition operator_lshift_vector (out : ostream) (v : list T) : ostream :=
  if negb (Nat.eqb (length v) 0) then
    let out := out +:+ "[" in
    let out := copy (take (length v - 1) v) ", " out in
    match v !! (length v - 1)%nat with
    | Some back => (out +:+ show back) +:+ "]"
    | None => out
    end
  else out.

(** [operator<<(std::ostream&, const std::array<T, SIZE>&)]; an array
    is a list of length [SIZE]. *)
Definition operator_lshift_array (SIZE : nat) (out : ostream) (a : list T)
    : ostream :=
  if negb (Nat.eqb SIZE 0) then
    let out := out +:+ "[" in
    let out := copy (take (SIZE - 1) a) ", " out in
    match a !! (SIZE - 1)%nat with
    | Some back => (out +:+ show back) +:+ "]"
    | None => out
    end
  else out.

(** The rendering the specification describes: the elements in order,
    separated by [", "], between brackets. *)
Definition bracketed (l : list T) : string :=
  "[" +:+ String.concat ", " (map show l) +:+ "]".

End Helpers.

End Display.

(** ** main

    [main] as a function of what it does not initialise (the contents of
    [a] and [b]) and of the text already on [std::cout]; it returns the
    text on [std::cout] and the exit status.  The element type [float] and
    its distribution are taken as given: [of_int] converts the [int]
    arguments [1] and [100], [show_float] is [out << x] for a [float]. *)

Section Main.

Context {F : Type} {real : Distribution F}.
Variable of_int : Z → F.
Variable show_float : F → string.

(** [out << std::endl] *)
Definition endl (out : Display.ostream) : Display.ostream :=
  out +:+ String (Ascii.ascii_of_nat 10) "".

Definition main (fuel : nat) (a : list Z) (b : list F) (cout : Display.ostream)
    : option (Display.ostream * Z) :=
  v ← main_fill_v fuel (replicate 10 0);
  let cout := endl (Display.operator_lshift_vector (pretty : Z → string) cout v) in
  a ← main_fill_a fuel a;
  let cout := endl (Display.operator_lshift_array (pretty : Z → string) 10 cout a) in
  b ← fillRnd_call (disType := real) b (of_int 1) (of_int 100) None;
  let cout := endl (Display.operator_lshift_array show_float 1 cout b) in
  Some (cout, 0).

End Main.

(** ** The type-level part *)

Module Traits.

(** The arithmetic types. *)
Inductive arithmetic : Type :=
  | Bool | Char | SignedChar | UnsignedChar | WChar | Char16 | Char32
  | Short | UnsignedShort | Int | UnsignedInt | Long | UnsignedLong
  | LongLong | UnsignedLongLong
  | Float | Double | LongDouble.

(** Types as far as the templates of the file inspect them: a class type
    (complete, not abstract) is described by its member [value_type], if
    any, and by whether [.begin()] and [.end()] are well-formed on it.
    [EnableIf B T] is the class [std::enable_if<B, T>]. *)
#[warnings="-register-all"]
Inductive type : Type :=
  | Void
  | Arithmetic (t : arithmetic)
  | ClassType (name : string) (value_type : option type) (has_begin has_end : bool)
  | EnableIf (B : bool) (T : type).

Definition is_floating_point (T : type) : bool :=
  match T with
  | Arithmetic (Float | Double | LongDouble) => true
  | _ => false
  end.

Definition is_integral (T : type) : bool :=
  match T with
  | Arithmetic (Float | Double | LongDouble) => false
  | Arithmetic _ => true
  | _ => false
  end.

Definition is_arithmetic (T : type) : bool :=
  is_integral T || is_floating_point T.

(** [typename T::value_type] *)
Definition value_type (T : type) : option type :=
  match T with
  | ClassType _ vt _ _ => vt
  | _ => None
  end.

(** [typename std::enable_if<B, T>::type]: the member exists when [B]
    holds. *)
Definition member_type (T : type) : option type :=
  match T with
  | EnableIf true T' => Some T'
  | _ => None
  end.

(** Well-formedness of [decltype(std::declval<T>().begin())] and of the
    same with [end]. *)
Definition decltype_begin (T : type) : bool :=
  match T with ClassType _ _ b _ => b | _ => false end.
Definition decltype_end (T : type) : bool :=
  match T with ClassType _ _ _ e => e | _ => false end.

(** [is_iterable<T>::value]: the partial specialization is chosen when
    [std::void_t<...>] of the two [decltype]s is well-formed. *)
Definition is_iterable (T : type) : bool :=
  if decltype_begin T && decltype_end T then true else false.

(** The second template parameter of [fillRnd]:
    [typename = std::enable_if<is_arithmetic<typename T::value_type>::value
                               && is_iterable<T>::value, void>].
    The default argument names the class [std::enable_if<..., void>]
    itself.  Substitution yields [None] when it fails. *)
Definition fillRnd_default_argument (T : type) : option type :=
  match value_type T with
  | Some vt => Some (EnableIf (is_arithmetic vt && is_iterable T) Void)
  | None => None
  end.

(** The parameter types [(T&, value_type, value_type, int)] after
    substitution.  A parameter of type [void] makes substitution fail. *)
Definition fillRnd_parameters (T : type) : option (list type) :=
  match value_type T with
  | Some Void => None
  | Some vt => Some [T; vt; vt; Arithmetic Int]
  | None => None
  end.

(** Whether [fillRnd<T>] takes part in overload resolution: substitution
    into the template head succeeds. *)
Definition fillRnd_viable (T : type) : bool :=
  match fillRnd_default_argument T, fillRnd_parameters T with
  | Some _, Some _ => true
  | _, _ => false
  end.

Inductive distribution : Type :=
  | uniform_int_distribution (IntType : type)
  | uniform_real_distribution (RealType : type).

(** [std::conditional<B, T, F>::type] *)
Definition conditional {A : Type} (B : bool) (T F : A) : A :=
  if B then T else F.

(** The alias [disType] inside [fillRnd]. *)
Definition disType (value_type : type) : distribution :=
  conditional (is_integral value_type)
    (uniform_int_distribution value_type)
    (uniform_real_distribution value_type).

(** Some types. *)
Definition std_string : type :=
  ClassType "std::string" (Some (Arithmetic Char)) true true.
Definition std_vector (T : type) : type :=
  ClassType "std::vector" (Some T) true true.
Definition std_array (T : type) : type :=
  ClassType "std::array" (Some T) true true.

End Traits.

(** ** std::uniform_int_distribution<IntType> over std::mt19937 (libstdc++)

    The class template for any integer type, described by its width and
    signedness.  [__uctype] is 64 bits wide whatever [IntType] is. *)

Module UniformIntegral.

Record int_type : Type := IntType { bits : Z; signed : bool }.

(** The widths the integer types have. *)
Definition well_formed (T : int_type) : Prop := 0 < bits T ≤ 64.

Definition type_min (T : int_type) : Z :=
  if signed T then - 2 ^ (bits T - 1) else 0.
Definition type_max (T : int_type) : Z :=
  if signed T then 2 ^ (bits T - 1) - 1 else 2 ^ bits T - 1.

(** The values of type [T]. *)
Definition is_value (T : int_type) (z : Z) : Prop :=
  type_min T ≤ z ≤ type_max T.

(** Conversion of an integer value to [T]. *)
Definition to_T (T : int_type) (z : Z) : Z :=
  let r := wrap (bits T) z in
  if signed T && (2 ^ (bits T - 1) <=? r) then r - 2 ^ bits T else r.

Definition uctype_bits : Z := 64.

Record param_type : Type := Param { M_a : Z; M_b : Z }.

(** The loop [do ... while (__ret > __urange || __ret < __tmp)] of the
    upscaling branch; [inner] is the call of [operator()] in its body and
    [k] bounds the iterations after the first. *)
Fixpoint do_while (inner : Mt19937.engine → option (Z * Mt19937.engine))
    (urange uerngrange urngmin : Z) (k : nat) (urng : Mt19937.engine)
    : option (Z * Mt19937.engine) :=
  match inner urng with
  | None => None
  | Some (h, urng) =>
      let tmp := wrap uctype_bits (uerngrange * wrap uctype_bits h) in
      let '(z, urng) := Mt19937.call urng in
      let ret :=
        wrap uctype_bits (tmp + wrap uctype_bits (wrap uctype_bits z - urngmin)) in
      if (urange <? ret) || (ret <? tmp) then
        match k with
        | O => None
        | S k' => do_while inner urange uerngrange urngmin k' urng
        end
      else Some (ret, urng)
  end.

(** [operator()(urng, param)].  [fuel] bounds the depth of the recursive
    calls and the iterations of each loop.  The downscaling branch is the
    32-bit [_S_nd], as the two [if constexpr] tests select for
    [std::mt19937]; the upscaling branch calls [operator()] again, with
    [param_type(0, __urange / __uerngrange)], for the upper part of the
    value. *)
Fixpoint call (fuel : nat) (T : int_type) (param : param_type)
    (urng : Mt19937.engine) {struct fuel} : option (Z * Mt19937.engine) :=
  let urngmin := wrap uctype_bits Mt19937.min in
  let urngmax := wrap uctype_bits Mt19937.max in
  let urngrange := wrap uctype_bits (urngmax - urngmin) in
  let urange :=
    wrap uctype_bits (wrap uctype_bits (M_b param) - wrap uctype_bits (M_a param)) in
  match
    (if urange <? urngrange then
       let uerange := wrap uctype_bits (urange + 1) in
       let u32erange := wrap 32 uerange in
       UniformInt.S_nd fuel u32erange urng
     else if urngrange <? urange then
       match fuel with
       | O => None
       | S fuel' =>
           let uerngrange := wrap uctype_bits (urngrange + 1) in
           let high := Param (to_T T 0) (to_T T (urange / uerngrange)) in
           do_while (call fuel' T high) urange uerngrange urngmin fuel' urng
       end
     else
       let '(z, g) := Mt19937.call urng in
       Some (wrap uctype_bits (wrap uctype_bits z - urngmin), g))
  with
  | Some (r, g) =>
      Some (to_T T (wrap uctype_bits (r + wrap uctype_bits (M_a param))), g)
  | None => None
  end.

Definition uniform_int_distribution (T : int_type) (fuel : nat)
    : Distribution Z := {|
  dist := param_type;
  construct := Param;
  invoke := λ dis urng,
    match call fuel T dis urng with
    | Some (v, urng') => Some (v, (dis, urng'))
    | None => None
    end
|}.

End UniformIntegral.

(** ** std::uniform_real_distribution<RealType> over std::mt19937 (libstdc++)

    [RealType] is an IEEE 754 binary format, given by the number of bits of
    its significand and the exponent of its infinities; the arithmetic is
    that of the format, with rounding to nearest, ties to even. *)

Module UniformReal.

Record format : Type := Format { prec : Z; emax : Z }.

Section Ops.

Variable F : format.

(** [RealType(z)] for an integer [z]. *)
Definition of_Z (z : Z) : spec_float :=
  binary_normalize (prec F) (emax F) z 0 false.

(** The loop of [generate_canonical], with [k] iterations left. *)
Fixpoint canonical_loop (k : nat) (r sum tmp : spec_float)
    (urng : Mt19937.engine) : spec_float * spec_float * Mt19937.engine :=
  match k with
  | O => (sum, tmp, urng)
  | S k' =>
      let '(z, urng) := Mt19937.call urng in
      let sum :=
        SFadd (prec F) (emax F) sum
          (SFmul (prec F) (emax F) (of_Z (z - Mt19937.min)) tmp) in
      let tmp := SFmul (prec F) (emax F) tmp r in
      canonical_loop k' r sum tmp urng
  end.

(** [generate_canonical<RealType, digits>(urng)].  [__r] is [2^32], a power
    of two, so [__tmp *= __r] is exact in [RealType] as it is in
    [long double]. *)
Definition generate_canonical (urng : Mt19937.engine)
    : spec_float * Mt19937.engine :=
  let b := prec F in
  let r := Mt19937.max - Mt19937.min + 1 in
  let log2r := Z.log2 r in
  let m := Z.max 1 ((b + log2r - 1) / log2r) in
  let '(sum, tmp, urng) :=
    canonical_loop (Z.to_nat m) (of_Z r) (of_Z 0) (of_Z 1) urng in
  let ret := SFdiv (prec F) (emax F) sum tmp in
  let ret :=
    if SFleb (of_Z 1) ret then SFpred (prec F) (emax F) (of_Z 1) else ret in
  (ret, urng).

Record param_type : Type := Param { M_a : spec_float; M_b : spec_float }.

(** [operator()(urng, p)]:
    [return (__aurng() * (__p.b() - __p.a())) + __p.a();] *)
Definition call (p : param_type) (urng : Mt19937.engine)
    : spec_float * Mt19937.engine :=
  let '(u, urng) := generate_canonical urng in
  (SFadd (prec F) (emax F)
     (SFmul (prec F) (emax F) u (SFsub (prec F) (emax F) (M_b p) (M_a p)))
     (M_a p),
   urng).

Definition uniform_real_distribution : Distribution spec_float := {|
  dist := param_type;
  construct := Param;
  invoke := λ dis urng,
    let '(v, urng') := call dis urng in Some (v, (dis, urng'))
|}.

End Ops.

(** [float] and its largest finite value. *)
Definition binary32 : format := Format 24 128.

End UniformReal.

(** ** The distribution that [disType] denotes

    [fillRnd] constructs [disType dis(min, max)] with [disType] computed
    from the element type.  For the element types on which the standard
    defines the two class templates, the object is the one modelled above;
    the widths and formats are those of x86-64 Linux. *)

Module Instantiation.

(** The integer types [std::uniform_int_distribution] is defined on. *)
Definition int_layout (t : Traits.arithmetic)
    : option UniformIntegral.int_type :=
  match t with
  | Traits.Short => Some (UniformIntegral.IntType 16 true)
  | Traits.UnsignedShort => Some (UniformIntegral.IntType 16 false)
  | Traits.Int => Some (UniformIntegral.IntType 32 true)
  | Traits.UnsignedInt => Some (UniformIntegral.IntType 32 false)
  | Traits.Long | Traits.LongLong => Some (UniformIntegral.IntType 64 true)
  | Traits.UnsignedLong | Traits.UnsignedLongLong =>
      Some (UniformIntegral.IntType 64 false)
  | _ => None
  end.

(** The floating-point types [std::uniform_real_distribution] is defined
    on. *)
Definition float_format (t : Traits.arithmetic) : option UniformReal.format :=
  match t with
  | Traits.Float => Some (UniformReal.Format 24 128)
  | Traits.Double => Some (UniformReal.Format 53 1024)
  | Traits.LongDouble => Some (UniformReal.Format 64 16384)
  | _ => None
  end.

(** A distribution object together with the type of its values. *)
Record instance : Type :=
  MkInstance { value : Type; object : Distribution value }.

(** The class a [Traits.distribution] names, when it is defined. *)
Definition model (fuel : nat) (d : Traits.distribution) : option instance :=
  match d with
  | Traits.uniform_int_distribution (Traits.Arithmetic t) =>
      match int_layout t with
      | Some T => Some (MkInstance Z (UniformIntegral.uniform_int_distribution T fuel))
      | None => None
      end
  | Traits.uniform_real_distribution (Traits.Arithmetic t) =>
      match float_format t with
      | Some F => Some (MkInstance spec_float (UniformReal.uniform_real_distribution F))
      | None => None
      end
  | _ => None
  end.

(** [disType] inside [fillRnd<T>], for a container [T] with the given
    [value_type]. *)
Definition disType (fuel : nat) (value_type : Traits.type) : option instance :=
  model fuel (Traits.disType value_type).

(** A specialization of [fillRnd]: the distribution it constructs and the
    function on containers of that element type. *)
Record specialization : Type := Specialization {
  inst : instance;
  run : list (value inst) → value inst → value inst → Z →
        option (list (value inst))
}.

(** [fillRnd<T>]: the body of [fillRnd] with [disType] computed from the
    element type of [T]. *)
Definition instantiate (fuel : nat) (value_type : Traits.type)
    : option specialization :=
  match disType fuel value_type with
  | Some d => Some (Specialization d (@fillRnd (value d) (object d)))
  | None => None
  end.

End Instantiation.

(** ** Engine objects with a chosen next output

    [engine_at x] is an engine about to return [temper x]: its position is
    at the start of a word array that holds [x] throughout. *)

Definition engine_at (x : Z) : Mt19937.engine :=
  {| Mt19937.M_x := replicate Mt19937.state_size x; Mt19937.M_p := 0 |}.

(** * Properties *)

(** ** The engine *)

Lemma word_bits (z : Z) :
  Mt19937.word z ↔ 0 ≤ z ∧ ∀ i, 32 ≤ i → Z.testbit z i = false.
Proof.
  unfold Mt19937.word, Mt19937.w. split.
  - intros [H0 H1]. split; [done|].
    by apply (Z.bounded_iff_bits_nonneg 32 z).
  - intros [H0 H1]. split; [done|].
    by apply (Z.bounded_iff_bits_nonneg 32 z).
Qed.

Lemma word_lxor (x y : Z) :
  Mt19937.word x → Mt19937.word y → Mt19937.word (Z.lxor x y).
Proof.
  rewrite !word_bits. intros [Hx Bx] [Hy By]. split.
  - by apply Z.lxor_nonneg.
  - intros i Hi. by rewrite Z.lxor_spec, Bx, By.
Qed.

Lemma word_lor (x y : Z) :
  Mt19937.word x → Mt19937.word y → Mt19937.word (Z.lor x y).
Proof.
  rewrite !word_bits. intros [Hx Bx] [Hy By]. split.
  - by apply Z.lor_nonneg.
  - intros i Hi. by rewrite Z.lor_spec, Bx, By.
Qed.

Lemma word_land_r (x y : Z) : Mt19937.word y → Mt19937.word (Z.land x y).
Proof.
  rewrite !word_bits. intros [Hy By]. split.
  - apply Z.land_nonneg. by right.
  - intros i Hi. rewrite Z.land_spec, By by done. apply andb_false_r.
Qed.

Lemma word_land_l (x y : Z) : Mt19937.word x → Mt19937.word (Z.land x y).
Proof. rewrite Z.land_comm. apply word_land_r. Qed.

Lemma word_shiftr (x k : Z) :
  0 ≤ k → Mt19937.word x → Mt19937.word (Z.shiftr x k).
Proof.
  rewrite !word_bits. intros Hk [Hx Bx]. split.
  - by apply Z.shiftr_nonneg.
  - intros i Hi. rewrite Z.shiftr_spec by lia. apply Bx. lia.
Qed.

Lemma word_wrap (z : Z) : Mt19937.word (wrap Mt19937.w z).
Proof. unfold Mt19937.word, wrap. by apply Z.mod_pos_bound. Qed.

Lemma word_temper (z : Z) : Mt19937.word z → Mt19937.word (Mt19937.temper z).
Proof.
  intros Hz. unfold Mt19937.temper.
  assert (Mt19937.word Mt19937.d) by (by vm_compute).
  assert (Mt19937.word Mt19937.b) by (by vm_compute).
  assert (Mt19937.word Mt19937.c) by (by vm_compute).
  repeat first [ apply word_lxor | apply word_land_r | apply word_shiftr ];
    done.
Qed.

Lemma word_lookup_total (x : list Z) (k : nat) :
  Forall Mt19937.word x → Mt19937.word (x !!! k).
Proof.
  intros Hx. destruct (x !! k) as [z|] eqn:E.
  - rewrite (list_lookup_total_correct _ _ _ E).
    by eapply Forall_lookup_1.
  - rewrite list_lookup_total_alt, E. by vm_compute.
Qed.

Lemma twist_valid (x : list Z) (k k1 km : nat) :
  Forall Mt19937.word x → Forall Mt19937.word (Mt19937.twist x k k1 km).
Proof.
  intros Hx. unfold Mt19937.twist. apply Forall_insert; [exact Hx|].
  apply word_lxor; [apply word_lxor|].
  - by apply word_lookup_total.
  - apply word_shiftr; [lia|].
    apply word_lor; apply word_land_l; by apply word_lookup_total.
  - destruct (Z.eqb _ _); by vm_compute.
Qed.

Lemma twist_length (x : list Z) (k k1 km : nat) :
  length (Mt19937.twist x k k1 km) = length x.
Proof. unfold Mt19937.twist. apply length_insert. Qed.

Lemma gen_loop1_valid (cnt k : nat) (x : list Z) :
  Forall Mt19937.word x →
  Forall Mt19937.word (Mt19937.gen_loop1 cnt k x)
  ∧ length (Mt19937.gen_loop1 cnt k x) = length x.
Proof.
  revert k x. induction cnt as [|cnt IH]; intros k x Hx; simpl; [done|].
  destruct (IH (S k) _ (twist_valid x k (k + 1) (k + Mt19937.m) Hx)) as [H1 H2].
  split; [exact H1 | etrans; [exact H2 | apply twist_length]].
Qed.

Lemma gen_loop2_valid (cnt k : nat) (x : list Z) :
  Forall Mt19937.word x →
  Forall Mt19937.word (Mt19937.gen_loop2 cnt k x)
  ∧ length (Mt19937.gen_loop2 cnt k x) = length x.
Proof.
  revert k x. induction cnt as [|cnt IH]; intros k x Hx; simpl; [done|].
  destruct (IH (S k) _
    (twist_valid x k (k + 1) (k - (Mt19937.n - Mt19937.m)) Hx)) as [H1 H2].
  split; [exact H1 | etrans; [exact H2 | apply twist_length]].
Qed.

Lemma M_gen_rand_valid (e : Mt19937.engine) :
  Mt19937.valid e → Mt19937.valid (Mt19937.M_gen_rand e).
Proof.
  intros (Hl & Hx & _). unfold Mt19937.valid, Mt19937.M_gen_rand.
  cbn [Mt19937.M_x Mt19937.M_p].
  destruct (gen_loop1_valid (Mt19937.n - Mt19937.m) 0 _ Hx) as [H1 L1].
  destruct (gen_loop2_valid (Mt19937.n - 1 - (Mt19937.n - Mt19937.m))
              (Mt19937.n - Mt19937.m) _ H1) as [H2 L2].
  split; [|split].
  - rewrite twist_length. etrans; [exact L2|]. etrans; [exact L1 | exact Hl].
  - by apply twist_valid.
  - apply Nat.le_0_l.
Qed.

Lemma seed_loop_valid (k i : nat) (prev : Z) (acc : list Z) :
  Forall Mt19937.word acc →
  Forall Mt19937.word (Mt19937.seed_loop k i prev acc)
  ∧ length (Mt19937.seed_loop k i prev acc) = (k + length acc)%nat.
Proof.
  revert i prev acc. induction k as [|k IH]; intros i prev acc Hacc; simpl.
  - split; [by apply Forall_rev | by rewrite length_rev].
  - destruct (IH (S i) (Mt19937.seed_next prev i)
                (Mt19937.seed_next prev i :: acc)) as [H1 H2].
    + constructor; [apply word_wrap | done].
    + split; [done|]. rewrite H2. simpl. lia.
Qed.

Lemma seed_valid (sd : Z) : Mt19937.valid (Mt19937.seed sd).
Proof.
  unfold Mt19937.valid, Mt19937.seed. cbn [Mt19937.M_x Mt19937.M_p].
  destruct (seed_loop_valid (Mt19937.state_size - 1) 1
              (wrap Mt19937.w (wrap Mt19937.UIntType_bits sd))
              [wrap Mt19937.w (wrap Mt19937.UIntType_bits sd)]) as [H1 H2].
  { constructor; [apply word_wrap | constructor]. }
  split; [|split]; [|exact H1|apply Nat.le_refl].
  etrans; [exact H2|]. reflexivity.
Qed.

Lemma call_valid (e : Mt19937.engine) :
  Mt19937.valid e →
  Mt19937.word (Mt19937.call e).1 ∧ Mt19937.valid (Mt19937.call e).2.
Proof.
  intros He. unfold Mt19937.call.
  assert (∃ e', (if decide (Mt19937.state_size ≤ Mt19937.M_p e)%nat
                 then Mt19937.M_gen_rand e else e) = e'
                ∧ Mt19937.valid e'
                ∧ (Mt19937.M_p e' < Mt19937.state_size)%nat)
    as (e' & -> & (Hl & Hx & Hp) & Hlt).
  { eexists. split; [reflexivity|].
    destruct (decide _) as [Hge|Hlt].
    - split; [by apply M_gen_rand_valid|]. apply Nat.lt_0_succ.
    - split; [done|]. by apply Nat.nle_gt. }
  cbn [fst snd]. split.
  - apply word_temper. by apply word_lookup_total.
  - unfold Mt19937.valid. cbn [Mt19937.M_x Mt19937.M_p].
    split; [done|]. split; [done|]. by apply Nat.le_succ_l.
Qed.

(** The check value the C++ standard gives for the engine: the 10000th
    consecutive output of a default-constructed [mt19937] (seed 5489). *)
Example mt19937_10000th :
  last (Mt19937.calls (100 * 100) (Mt19937.seed 5489)).1 = Some 4123659995.
Proof. by vm_compute. Qed.

(** ** std::uniform_int_distribution<int> *)

Lemma wrap_small (w z : Z) : 0 ≤ z < 2 ^ w → wrap w z = z.
Proof. intros H. unfold wrap. by apply Z.mod_small. Qed.

Lemma wrap_sub (w x y : Z) :
  0 ≤ x - y < 2 ^ w → wrap w (wrap w x - wrap w y) = x - y.
Proof.
  intros H. unfold wrap. rewrite <- Zminus_mod. by apply Z.mod_small.
Qed.

Lemma to_int_wrap_add (r a : Z) :
  UniformInt.is_int (r + a) →
  UniformInt.to_int (wrap 64 (r + wrap 64 a)) = r + a.
Proof.
  unfold UniformInt.is_int, UniformInt.int_min, UniformInt.int_max,
    UniformInt.to_int, UniformInt.int_bits, wrap.
  intros H. rewrite Zplus_mod_idemp_r.
  change (2 ^ (32 - 1)) with 2147483648 in *.
  change (2 ^ 32) with 4294967296.
  change (2 ^ 64) with 18446744073709551616.
  Z.div_mod_to_equations. lia.
Qed.

(** A product of an engine word and a 32-bit range fits 64 bits, and its
    upper half is below the range. *)
Lemma product_bound (z range : Z) :
  Mt19937.word z → 0 < range < 2 ^ 32 →
  0 ≤ z * range < 2 ^ 32 * range ∧ z * range < 2 ^ 64.
Proof.
  unfold Mt19937.word, Mt19937.w.
  change (2 ^ 32) with 4294967296. change (2 ^ 64) with 18446744073709551616.
  intros Hz Hr. nia.
Qed.

Lemma S_nd_loop_spec (fuel : nat) (range threshold product : Z)
    (g : Mt19937.engine) (p' : Z) (g' : Mt19937.engine) :
  0 < range < 2 ^ 32 →
  Mt19937.valid g →
  0 ≤ product < 2 ^ 32 * range →
  UniformInt.S_nd_loop fuel range threshold product g = Some (p', g') →
  Mt19937.valid g' ∧ 0 ≤ p' < 2 ^ 32 * range.
Proof.
  intros Hr. revert product g.
  induction fuel as [|fuel IH]; intros product g Hg Hp;
    cbn [UniformInt.S_nd_loop].
  - destruct (_ <? _); [done|]. by intros [= <- <-].
  - destruct (_ <? _); [|by intros [= <- <-]].
    destruct (Mt19937.call g) as [z g1] eqn:E.
    destruct (call_valid g Hg) as [Hz Hg1]. rewrite E in Hz, Hg1. simpl in Hz, Hg1.
    destruct (product_bound z range Hz Hr) as [Hb H64].
    rewrite (wrap_small 64 z) by (unfold Mt19937.word, Mt19937.w in Hz; lia).
    rewrite (wrap_small 64 range) by lia.
    rewrite (wrap_small 64 (z * range)) by lia.
    by apply IH.
Qed.

Lemma S_nd_spec (fuel : nat) (range : Z) (g : Mt19937.engine)
    (r : Z) (g' : Mt19937.engine) :
  0 < range < 2 ^ 32 →
  Mt19937.valid g →
  UniformInt.S_nd fuel range g = Some (r, g') →
  Mt19937.valid g' ∧ 0 ≤ r < range.
Proof.
  intros Hr Hg. unfold UniformInt.S_nd.
  destruct (Mt19937.call g) as [z g1] eqn:E.
  destruct (call_valid g Hg) as [Hz Hg1]. rewrite E in Hz, Hg1. simpl in Hz, Hg1.
  destruct (product_bound z range Hz Hr) as [Hb H64].
  rewrite (wrap_small 64 z) by (unfold Mt19937.word, Mt19937.w in Hz; lia).
  rewrite (wrap_small 64 range) by lia.
  rewrite (wrap_small 64 (z * range)) by lia.
  assert (∀ p g2, Mt19937.valid g2 → 0 ≤ p < 2 ^ 32 * range →
            Mt19937.valid g2 ∧ 0 ≤ wrap 32 (Z.shiftr p 32) < range) as Hfin.
  { intros p g2 Hg2 Hp. split; [done|].
    rewrite Z.shiftr_div_pow2 by lia.
    assert (0 ≤ p / 2 ^ 32 < range) as Hq.
    { split; [apply Z.div_pos; lia | apply Z.div_lt_upper_bound; lia]. }
    rewrite wrap_small; lia. }
  destruct (_ <? _).
  - destruct (UniformInt.S_nd_loop _ _ _ _ _) as [[p g2]|] eqn:El; [|done].
    intros [= <- <-].
    destruct (S_nd_loop_spec _ _ _ _ _ _ _ Hr Hg1 Hb El) as [Hg2 Hp].
    by apply Hfin.
  - intros [= <- <-]. by apply Hfin.
Qed.

Lemma uniform_int_call_spec (fuel : nat) (p : UniformInt.param_type)
    (g : Mt19937.engine) (v : Z) (g' : Mt19937.engine) :
  Mt19937.valid g →
  UniformInt.call fuel p g = Some (v, g') →
  Mt19937.valid g' ∧
  (UniformInt.is_int (UniformInt.M_a p) → UniformInt.is_int (UniformInt.M_b p) →
   UniformInt.M_a p ≤ UniformInt.M_b p →
   UniformInt.M_a p ≤ v ≤ UniformInt.M_b p).
Proof.
  intros Hg. destruct p as [a b]. unfold UniformInt.call.
  cbn [UniformInt.M_a UniformInt.M_b].
  change (wrap UniformInt.uctype_bits Mt19937.min) with 0.
  change (wrap UniformInt.uctype_bits Mt19937.max) with 4294967295.
  change (wrap UniformInt.uctype_bits (4294967295 - 0)) with 4294967295.
  change UniformInt.uctype_bits with 64.
  set (urange := wrap 64 (wrap 64 b - wrap 64 a)).
  assert (UniformInt.is_int a → UniformInt.is_int b → a ≤ b → urange = b - a)
    as Hur.
  { unfold UniformInt.is_int, UniformInt.int_min, UniformInt.int_max,
      UniformInt.int_bits. change (2 ^ (32 - 1)) with 2147483648.
    intros Ha Hb Hab. subst urange. apply wrap_sub.
    change (2 ^ 64) with 18446744073709551616. lia. }
  assert (0 ≤ urange < 2 ^ 64) as Hu64.
  { subst urange. unfold wrap. by apply Z.mod_pos_bound. }
  destruct (urange <? 4294967295) eqn:E1.
  - apply Z.ltb_lt in E1.
    rewrite (wrap_small 64 (urange + 1)) by lia.
    rewrite (wrap_small 32 (urange + 1)) by lia.
    destruct (UniformInt.S_nd fuel (urange + 1) g) as [[r g1]|] eqn:Es; [|done].
    intros [= <- <-].
    destruct (S_nd_spec fuel (urange + 1) g r g1 ltac:(lia) Hg Es) as [Hg1 Hr].
    split; [done|]. intros Ha Hb Hab. specialize (Hur Ha Hb Hab).
    rewrite to_int_wrap_add.
    + lia.
    + unfold UniformInt.is_int in *. lia.
  - destruct (4294967295 <? urange) eqn:E2; [done|].
    apply Z.ltb_ge in E1, E2.
    destruct (Mt19937.call g) as [z g1] eqn:E.
    destruct (call_valid g Hg) as [Hz Hg1]. rewrite E in Hz, Hg1.
    simpl in Hz, Hg1. unfold Mt19937.word, Mt19937.w in Hz.
    intros [= <- <-]. split; [done|]. intros Ha Hb Hab.
    specialize (Hur Ha Hb Hab).
    rewrite (wrap_small 64 z) by lia. rewrite Z.sub_0_r.
    rewrite (wrap_small 64 z) by lia.
    unfold UniformInt.is_int, UniformInt.int_min, UniformInt.int_max,
      UniformInt.int_bits in Ha, Hb.
    change (2 ^ (32 - 1)) with 2147483648 in Ha, Hb.
    rewrite to_int_wrap_add.
    + lia.
    + unfold UniformInt.is_int, UniformInt.int_min, UniformInt.int_max,
        UniformInt.int_bits. change (2 ^ (32 - 1)) with 2147483648. lia.
Qed.

(** libstdc++'s distribution keeps the promise of the standard. *)
Lemma uniform_int_contract (fuel : nat) :
  UniformContract Z.le UniformInt.is_int (UniformInt.uniform_int_distribution fuel).
Proof.
  refine {| param := λ d : @dist _ (UniformInt.uniform_int_distribution fuel),
                       (UniformInt.M_a d, UniformInt.M_b d) |}.
  - done.
  - intros d g v d' g' Hg. cbn [invoke UniformInt.uniform_int_distribution].
    destruct (UniformInt.call fuel d g) as [[v1 g1]|] eqn:E; [|done].
    intros [= <- <- <-].
    destruct (uniform_int_call_spec fuel d g v1 g1 Hg E) as [Hg1 Hv].
    split; [done|]. split; [done|]. exact Hv.
Qed.

(** When the number of values in the range divides [2^32], Lemire's
    method never rejects: the result is the upper half of the product. *)
Lemma S_nd_no_rejection (fuel : nat) (range : Z) (g : Mt19937.engine) :
  0 < range < 2 ^ 32 → 2 ^ 32 mod range = 0 → Mt19937.valid g →
  UniformInt.S_nd fuel range g
  = Some ((Mt19937.call g).1 * range / 2 ^ 32, (Mt19937.call g).2).
Proof.
  intros Hr Hdiv Hg. unfold UniformInt.S_nd.
  destruct (call_valid g Hg) as [Hz Hg1].
  destruct (Mt19937.call g) as [z g1]. cbn [fst snd] in *.
  destruct (product_bound z range Hz Hr) as [Hb H64].
  rewrite (wrap_small 64 z) by (unfold Mt19937.word, Mt19937.w in Hz; lia).
  rewrite (wrap_small 64 range) by lia.
  rewrite (wrap_small 64 (z * range)) by lia.
  assert (wrap 32 (- range) mod range = 0) as ->.
  { assert ((- range) mod 2 ^ 32 = 2 ^ 32 - range) as Hneg.
    { rewrite <- (Z_mod_plus_full (- range) 1 (2 ^ 32)).
      rewrite Z.mod_small; lia. }
    unfold wrap. rewrite Hneg.
    apply Z.mod_divide in Hdiv; [|lia]. destruct Hdiv as [q Hq].
    replace (2 ^ 32 - range) with ((q - 1) * range) by lia.
    apply Z_mod_mult. }
  assert (wrap 32 (Z.shiftr (z * range) 32) = z * range / 2 ^ 32) as Hfin.
  { rewrite Z.shiftr_div_pow2 by lia.
    assert (0 ≤ z * range / 2 ^ 32 < range) as Hq.
    { split; [apply Z.div_pos; lia | apply Z.div_lt_upper_bound; lia]. }
    rewrite wrap_small; lia. }
  assert (UniformInt.S_nd_loop fuel range 0 (z * range) g1
          = Some (z * range, g1)) as Hloop.
  { assert ((wrap 32 (z * range) <? 0) = false) as Hlow.
    { apply Z.ltb_ge. unfold wrap. apply Z.mod_pos_bound. lia. }
    destruct fuel; cbn [UniformInt.S_nd_loop]; by rewrite Hlow. }
  destruct (_ <? _); [rewrite Hloop|]; by rewrite Hfin.
Qed.

Lemma call_no_rejection (fuel : nat) (a b : Z) (g : Mt19937.engine) :
  UniformInt.is_int a → UniformInt.is_int b → a ≤ b →
  2 ^ 32 mod (b - a + 1) = 0 → Mt19937.valid g →
  UniformInt.call fuel (UniformInt.Param a b) g
  = Some (a + (Mt19937.call g).1 * (b - a + 1) / 2 ^ 32, (Mt19937.call g).2).
Proof.
  intros Ha Hb Hab Hdiv Hg. unfold UniformInt.call.
  cbn [UniformInt.M_a UniformInt.M_b].
  change (wrap UniformInt.uctype_bits Mt19937.min) with 0.
  change (wrap UniformInt.uctype_bits Mt19937.max) with 4294967295.
  change (wrap UniformInt.uctype_bits (4294967295 - 0)) with 4294967295.
  change UniformInt.uctype_bits with 64.
  assert (- 2147483648 ≤ a ≤ 2147483647 ∧ - 2147483648 ≤ b ≤ 2147483647)
    as [Ha' Hb'] by (split; [apply Ha | apply Hb]).
  rewrite (wrap_sub 64 b a) by lia.
  destruct (call_valid g Hg) as [Hz Hg1].
  destruct (b - a <? 4294967295) eqn:E1.
  - apply Z.ltb_lt in E1.
    rewrite (wrap_small 64 (b - a + 1)) by lia.
    rewrite (wrap_small 32 (b - a + 1)) by lia.
    rewrite S_nd_no_rejection by (done || lia).
    assert (0 ≤ (Mt19937.call g).1 * (b - a + 1) / 2 ^ 32 < b - a + 1) as Hq.
    { destruct (product_bound _ (b - a + 1) Hz ltac:(lia)) as [Hp _].
      split; [apply Z.div_pos; lia | apply Z.div_lt_upper_bound; lia]. }
    rewrite to_int_wrap_add.
    + do 2 f_equal. lia.
    + split; [change UniformInt.int_min with (- 2147483648)
             | change UniformInt.int_max with 2147483647]; lia.
  - apply Z.ltb_ge in E1.
    replace (4294967295 <? b - a) with false by (symmetry; apply Z.ltb_ge; lia).
    destruct (Mt19937.call g) as [z g1]. cbn [fst snd] in *.
    unfold Mt19937.word, Mt19937.w in Hz.
    rewrite (wrap_small 64 z) by lia. rewrite Z.sub_0_r.
    rewrite (wrap_small 64 z) by lia.
    replace (b - a + 1) with (2 ^ 32) by lia.
    rewrite Z.div_mul by lia.
    rewrite to_int_wrap_add.
    + do 2 f_equal. lia.
    + split; [change UniformInt.int_min with (- 2147483648)
             | change UniformInt.int_max with 2147483647]; lia.
Qed.

(** ** std::uniform_int_distribution<IntType> *)

Lemma pow2_bits (T : UniformIntegral.int_type) :
  UniformIntegral.well_formed T →
  0 < 2 ^ (UniformIntegral.bits T - 1)
  ∧ 2 ^ UniformIntegral.bits T = 2 * 2 ^ (UniformIntegral.bits T - 1)
  ∧ 2 ^ UniformIntegral.bits T ≤ 2 ^ 64.
Proof.
  intros [H0 H1]. split; [apply Z.pow_pos_nonneg; lia|]. split.
  - rewrite <- Z.pow_succ_r by lia. f_equal. lia.
  - apply Z.pow_le_mono_r; lia.
Qed.

Lemma wrap_wrap_64 (T : UniformIntegral.int_type) (z : Z) :
  UniformIntegral.well_formed T →
  wrap (UniformIntegral.bits T) (wrap 64 z) = wrap (UniformIntegral.bits T) z.
Proof.
  intros [H0 H1]. unfold wrap. apply Z.mod_mod_divide.
  exists (2 ^ (64 - UniformIntegral.bits T)).
  rewrite <- Z.pow_add_r by lia. f_equal. lia.
Qed.

Lemma to_T_value (T : UniformIntegral.int_type) (v : Z) :
  UniformIntegral.well_formed T → UniformIntegral.is_value T v →
  UniformIntegral.to_T T v = v.
Proof.
  intros HT. destruct (pow2_bits T HT) as (Hp & H2 & _).
  unfold UniformIntegral.is_value, UniformIntegral.type_min,
    UniformIntegral.type_max, UniformIntegral.to_T, wrap.
  destruct (UniformIntegral.signed T); cbn [andb]; intros Hv.
  - destruct (Z_lt_le_dec v 0) as [Hneg|Hpos].
    + assert (v mod 2 ^ UniformIntegral.bits T = v + 2 ^ UniformIntegral.bits T)
        as ->.
      { rewrite <- (Z_mod_plus_full v 1). rewrite Z.mod_small; lia. }
      replace (_ <=? _) with true by (symmetry; apply Z.leb_le; lia). lia.
    + rewrite Z.mod_small by lia.
      by replace (_ <=? _) with false by (symmetry; apply Z.leb_gt; lia).
  - apply Z.mod_small. lia.
Qed.

Lemma to_T_wrap_add (T : UniformIntegral.int_type) (r a : Z) :
  UniformIntegral.well_formed T → UniformIntegral.is_value T (r + a) →
  UniformIntegral.to_T T (wrap 64 (r + wrap 64 a)) = r + a.
Proof.
  intros HT Hv. transitivity (UniformIntegral.to_T T (r + a));
    [|by apply to_T_value].
  unfold UniformIntegral.to_T.
  assert (wrap (UniformIntegral.bits T) (wrap 64 (r + wrap 64 a))
          = wrap (UniformIntegral.bits T) (r + a)) as ->; [|done].
  assert (wrap 64 (r + wrap 64 a) = wrap 64 (r + a)) as ->
    by (unfold wrap; by rewrite Zplus_mod_idemp_r).
  by apply wrap_wrap_64.
Qed.

(** The difference of the bounds, as [__urange] holds it. *)
Lemma integral_urange (T : UniformIntegral.int_type) (a b : Z) :
  UniformIntegral.well_formed T →
  UniformIntegral.is_value T a → UniformIntegral.is_value T b → a ≤ b →
  wrap 64 (wrap 64 b - wrap 64 a) = b - a
  ∧ b - a < 2 ^ UniformIntegral.bits T.
Proof.
  intros HT. destruct (pow2_bits T HT) as (Hp & H2 & H64).
  unfold UniformIntegral.is_value, UniformIntegral.type_min,
    UniformIntegral.type_max.
  intros Ha Hb Hab.
  assert (b - a < 2 ^ UniformIntegral.bits T) as Hlt
    by (destruct (UniformIntegral.signed T); lia).
  split; [|done]. apply wrap_sub. lia.
Qed.

Lemma do_while_spec (inner : Mt19937.engine → option (Z * Mt19937.engine))
    (urange uerngrange urngmin : Z) (k : nat) (g : Mt19937.engine)
    (ret : Z) (g' : Mt19937.engine) :
  (∀ g0 h g1, Mt19937.valid g0 → inner g0 = Some (h, g1) → Mt19937.valid g1) →
  Mt19937.valid g →
  UniformIntegral.do_while inner urange uerngrange urngmin k g = Some (ret, g') →
  Mt19937.valid g' ∧ 0 ≤ ret ≤ urange.
Proof.
  intros Hinner. revert g.
  induction k as [|k IH]; intros g Hg; cbn [UniformIntegral.do_while].
  - destruct (inner g) as [[h g1]|] eqn:Ei; [|done].
    pose proof (Hinner _ _ _ Hg Ei) as Hg1.
    destruct (call_valid g1 Hg1) as [_ Hg2].
    destruct (Mt19937.call g1) as [z g2]. cbn [snd] in Hg2.
    destruct (_ || _) eqn:Et; [done|]. intros [= <- <-].
    apply orb_false_elim in Et as [Et _]. apply Z.ltb_ge in Et.
    split; [done|]. split; [|done].
    unfold wrap. apply Z.mod_pos_bound. done.
  - destruct (inner g) as [[h g1]|] eqn:Ei; [|done].
    pose proof (Hinner _ _ _ Hg Ei) as Hg1.
    destruct (call_valid g1 Hg1) as [_ Hg2].
    destruct (Mt19937.call g1) as [z g2]. cbn [snd] in Hg2.
    destruct (_ || _) eqn:Et; [by apply IH|]. intros [= <- <-].
    apply orb_false_elim in Et as [Et _]. apply Z.ltb_ge in Et.
    split; [done|]. split; [|done].
    unfold wrap. apply Z.mod_pos_bound. done.
Qed.

Lemma uniform_integral_call_spec (T : UniformIntegral.int_type) (fuel : nat)
    (p : UniformIntegral.param_type) (g : Mt19937.engine)
    (v : Z) (g' : Mt19937.engine) :
  Mt19937.valid g →
  UniformIntegral.call fuel T p g = Some (v, g') →
  Mt19937.valid g' ∧
  (UniformIntegral.well_formed T →
   UniformIntegral.is_value T (UniformIntegral.M_a p) →
   UniformIntegral.is_value T (UniformIntegral.M_b p) →
   UniformIntegral.M_a p ≤ UniformIntegral.M_b p →
   UniformIntegral.M_a p ≤ v ≤ UniformIntegral.M_b p).
Proof.
  revert p g v g'.
  assert (∀ (a b r : Z),
            (UniformIntegral.well_formed T →
             UniformIntegral.is_value T a → UniformIntegral.is_value T b →
             a ≤ b → 0 ≤ r ≤ b - a) →
            UniformIntegral.well_formed T →
            UniformIntegral.is_value T a → UniformIntegral.is_value T b →
            a ≤ b →
            a ≤ UniformIntegral.to_T T (wrap 64 (r + wrap 64 a)) ≤ b) as Hfin.
  { intros a b r Hr HT Ha Hb Hab. specialize (Hr HT Ha Hb Hab).
    rewrite to_T_wrap_add; [lia|done|].
    unfold UniformIntegral.is_value in *. lia. }
  induction fuel as [|fuel IH]; intros [a b] g v g' Hg;
    cbn [UniformIntegral.call UniformIntegral.M_a UniformIntegral.M_b];
    change (wrap UniformIntegral.uctype_bits Mt19937.min) with 0;
    change (wrap UniformIntegral.uctype_bits Mt19937.max) with 4294967295;
    change (wrap UniformIntegral.uctype_bits (4294967295 - 0)) with 4294967295;
    change (wrap UniformIntegral.uctype_bits (4294967295 + 1)) with 4294967296;
    change UniformIntegral.uctype_bits with 64;
    set (urange := wrap 64 (wrap 64 b - wrap 64 a));
    (assert (0 ≤ urange < 2 ^ 64) as Hu64
       by (subst urange; unfold wrap; by apply Z.mod_pos_bound));
    (assert (UniformIntegral.well_formed T →
             UniformIntegral.is_value T a → UniformIntegral.is_value T b →
             a ≤ b → urange = b - a) as Hur
       by (intros HT Ha Hb Hab; by destruct (integral_urange T a b)));
    destruct (urange <? 4294967295) eqn:E1.
  - apply Z.ltb_lt in E1.
    rewrite (wrap_small 64 (urange + 1)) by lia.
    rewrite (wrap_small 32 (urange + 1)) by lia.
    destruct (UniformInt.S_nd 0 (urange + 1) g) as [[r g1]|] eqn:Es; [|done].
    intros [= <- <-].
    destruct (S_nd_spec 0 (urange + 1) g r g1 ltac:(lia) Hg Es) as [Hg1 Hr].
    split; [done|]. apply Hfin. intros HT Ha Hb Hab.
    rewrite <- (Hur HT Ha Hb Hab). lia.
  - destruct (4294967295 <? urange) eqn:E2; [done|].
    apply Z.ltb_ge in E1, E2.
    destruct (call_valid g Hg) as [Hz Hg1].
    destruct (Mt19937.call g) as [z g1]. cbn [fst snd] in Hz, Hg1.
    unfold Mt19937.word, Mt19937.w in Hz.
    intros [= <- <-]. split; [done|].
    rewrite (wrap_small 64 z) by lia. rewrite Z.sub_0_r.
    rewrite (wrap_small 64 z) by lia.
    apply Hfin. intros HT Ha Hb Hab.
    rewrite <- (Hur HT Ha Hb Hab). lia.
  - apply Z.ltb_lt in E1.
    rewrite (wrap_small 64 (urange + 1)) by lia.
    rewrite (wrap_small 32 (urange + 1)) by lia.
    destruct (UniformInt.S_nd _ (urange + 1) g) as [[r g1]|] eqn:Es; [|done].
    intros [= <- <-].
    destruct (S_nd_spec _ (urange + 1) g r g1 ltac:(lia) Hg Es) as [Hg1 Hr].
    split; [done|]. apply Hfin. intros HT Ha Hb Hab.
    rewrite <- (Hur HT Ha Hb Hab). lia.
  - destruct (4294967295 <? urange) eqn:E2.
    + destruct (UniformIntegral.do_while _ _ _ _ _ _) as [[r g1]|] eqn:Ed;
        [|done].
      intros [= <- <-].
      apply do_while_spec in Ed as [Hg1 Hr]; [| |done].
      * split; [done|]. apply Hfin. intros HT Ha Hb Hab.
        rewrite <- (Hur HT Ha Hb Hab). lia.
      * intros g0 h g2 Hg0 Hc. by destruct (IH _ _ _ _ Hg0 Hc).
    + apply Z.ltb_ge in E1, E2.
      destruct (call_valid g Hg) as [Hz Hg1].
      destruct (Mt19937.call g) as [z g1]. cbn [fst snd] in Hz, Hg1.
      unfold Mt19937.word, Mt19937.w in Hz.
      intros [= <- <-]. split; [done|].
      rewrite (wrap_small 64 z) by lia. rewrite Z.sub_0_r.
      rewrite (wrap_small 64 z) by lia.
      apply Hfin. intros HT Ha Hb Hab.
      rewrite <- (Hur HT Ha Hb Hab). lia.
Qed.


(** On [int] the class template is the distribution modelled in
    [UniformInt], for bounds within its precondition. *)
Lemma to_T_int32 (z : Z) :
  UniformIntegral.to_T (UniformIntegral.IntType 32 true) z = UniformInt.to_int z.
Proof.
  unfold UniformIntegral.to_T, UniformInt.to_int, UniformInt.int_bits, wrap.
  cbn [UniformIntegral.bits UniformIntegral.signed andb].
  change (2 ^ (32 - 1)) with 2147483648. change (2 ^ 32) with 4294967296.
  destruct (2147483648 <=? z mod 4294967296) eqn:E;
    [apply Z.leb_le in E | apply Z.leb_gt in E];
    Z.div_mod_to_equations; lia.
Qed.

Lemma integral_call_int32 (fuel : nat) (a b : Z) (g : Mt19937.engine) :
  UniformInt.is_int a → UniformInt.is_int b → a ≤ b →
  UniformIntegral.call fuel (UniformIntegral.IntType 32 true)
    (UniformIntegral.Param a b) g
  = UniformInt.call fuel (UniformInt.Param a b) g.
Proof.
  intros Ha Hb Hab.
  assert (- 2147483648 ≤ a ≤ 2147483647 ∧ - 2147483648 ≤ b ≤ 2147483647)
    as [Ha' Hb'] by (split; [apply Ha | apply Hb]).
  unfold UniformInt.call.
  destruct fuel;
    cbn [UniformIntegral.call UniformIntegral.M_a UniformIntegral.M_b
         UniformInt.M_a UniformInt.M_b];
    change (wrap UniformIntegral.uctype_bits Mt19937.min) with 0;
    change (wrap UniformIntegral.uctype_bits Mt19937.max) with 4294967295;
    change (wrap UniformIntegral.uctype_bits (4294967295 - 0)) with 4294967295;
    change (wrap UniformInt.uctype_bits Mt19937.min) with 0;
    change (wrap UniformInt.uctype_bits Mt19937.max) with 4294967295;
    change (wrap UniformInt.uctype_bits (4294967295 - 0)) with 4294967295;
    change UniformIntegral.uctype_bits with 64;
    change UniformInt.uctype_bits with 64;
    rewrite (wrap_sub 64 b a) by lia;
    (destruct (b - a <? 4294967295);
     [|replace (4294967295 <? b - a) with false
         by (symmetry; apply Z.ltb_ge; lia)]);
    match goal with
    | |- match ?x with _ => _ end = match ?x with _ => _ end =>
        destruct x as [[r g1]|]; [by rewrite to_T_int32 | reflexivity]
    end.
Qed.

(** ** std::generate *)

Section GenerateFacts.

Context {V S : Type}.
Implicit Types (gen : M S V) (arr vs : list V) (s : S).

Lemma draws_length k gen s vs s' :
  draws k gen s = Some (vs, s') → length vs = k.
Proof.
  revert s vs s'. induction k as [|k IH]; intros s vs s'; simpl.
  - unfold ret. by intros [= <- _].
  - unfold bind, ret. destruct (gen s) as [[v s1]|]; [|done].
    destruct (draws k gen s1) as [[vs1 s2]|] eqn:E; [|done].
    intros [= <- _]. simpl. f_equal. by eapply IH.
Qed.

(** The loop writes the [k] results to the positions [first], ...,
    [first + k - 1] and leaves the others. *)
Lemma generate_draws k first gen arr s :
  (first + k ≤ length arr)%nat →
  generate k first gen arr s =
    match draws k gen s with
    | Some (vs, s') => Some (take first arr ++ vs ++ drop (first + k) arr, s')
    | None => None
    end.
Proof.
  revert first arr s. induction k as [|k IH]; intros first arr s Hlen; simpl.
  - unfold ret. by rewrite Nat.add_0_r, take_drop.
  - unfold bind. destruct (gen s) as [[v s1]|]; [|done].
    rewrite IH by (rewrite length_insert; lia).
    unfold ret. destruct (draws k gen s1) as [[vs s2]|]; [|done].
    do 2 f_equal.
    rewrite (take_S_r _ _ v) by (apply list_lookup_insert_eq; lia).
    rewrite take_insert_ge by lia.
    rewrite drop_insert_lt by lia.
    replace (first + Datatypes.S k)%nat with (Datatypes.S first + k)%nat by lia.
    by rewrite <- app_assoc.
Qed.

Lemma draws_prefix k j gen s vs s' :
  (j ≤ k)%nat →
  draws k gen s = Some (vs, s') →
  ∃ s'', draws j gen s = Some (take j vs, s'').
Proof.
  revert j s vs s'. induction k as [|k IH]; intros j s vs s' Hj; simpl.
  - assert (j = 0%nat) as -> by lia. unfold ret. intros [= <- <-]. by eexists.
  - unfold bind, ret. destruct (gen s) as [[v s1]|] eqn:Eg; [|done].
    destruct (draws k gen s1) as [[vs1 s2]|] eqn:E; [|done].
    intros [= <- <-]. destruct j as [|j]; simpl.
    + by eexists.
    + unfold bind, ret. rewrite Eg.
      destruct (IH j s1 vs1 s2 ltac:(lia) E) as [s'' ->]. by eexists.
Qed.

Lemma draws_Forall (P : V → Prop) (I : S → Prop) k gen s vs s' :
  (∀ s v s', I s → gen s = Some (v, s') → P v ∧ I s') →
  I s → draws k gen s = Some (vs, s') → Forall P vs.
Proof.
  intros Hgen. revert s vs s'.
  induction k as [|k IH]; intros s vs s' Hs; simpl.
  - unfold ret. intros [= <- _]. constructor.
  - unfold bind, ret. destruct (gen s) as [[v s1]|] eqn:Eg; [|done].
    destruct (draws k gen s1) as [[vs1 s2]|] eqn:E; [|done].
    intros [= <- _]. destruct (Hgen _ _ _ Hs Eg) as [Hv Hs1].
    constructor; [done|]. by eapply IH.
Qed.

Lemma draws_total k gen s :
  (∀ s, is_Some (gen s)) → is_Some (draws k gen s).
Proof.
  intros Hgen. revert s. induction k as [|k IH]; intros s; simpl.
  - by eexists.
  - unfold bind, ret. destruct (Hgen s) as [[v s1] ->].
    destruct (IH s1) as [[vs s2] ->]. by eexists.
Qed.

End GenerateFacts.

(** ** fillRnd *)

Section FillRndFacts.

Context {V : Type} {disType : Distribution V}.
Implicit Types (arr out : list V) (min max : V) (seed : Z).

(** What [fillRnd] leaves in the container: the results of
    [length arr] successive calls of the lambda. *)
Lemma fillRnd_draws arr min max seed :
  fillRnd arr min max seed =
    match draws (length arr) lambda (construct min max, Mt19937.seed seed) with
    | Some (vs, _) => Some vs
    | None => None
    end.
Proof.
  unfold fillRnd. rewrite generate_draws by (simpl; lia).
  destruct (draws _ _ _) as [[vs s']|] eqn:E; [|done].
  apply draws_length in E.
  rewrite take_0. simpl. rewrite drop_all. by rewrite app_nil_r.
Qed.

End FillRndFacts.

(** ** Claims about fillRnd *)

(** C1. Determinism: for every element type, bounds, seed and length, two
    calls of [fillRnd] on containers of equal length with the same bounds
    and seed leave the same contents, whatever the containers held before
    (and if one call does not return, neither does the other). *)
Theorem fillRnd_deterministic {V : Type} {disType : Distribution V}
    (arr1 arr2 : list V) (min max : V) (seed : Z) :
  length arr1 = length arr2 →
  fillRnd arr1 min max seed = fillRnd arr2 min max seed.
Proof. intros H. by rewrite !fillRnd_draws, H. Qed.

Lemma fillRnd_deterministic_witness :
  length (replicate 10 0) = length [9; 8; 7; 6; 5; 4; 3; 2; 1; 0]
  ∧ fillRnd (disType := UniformInt.uniform_int_distribution 0)
      (replicate 10 0) 1 10 42
    = fillRnd (disType := UniformInt.uniform_int_distribution 0)
        [9; 8; 7; 6; 5; 4; 3; 2; 1; 0] 1 10 42.
Proof.
  split; [reflexivity|]. apply fillRnd_deterministic. reflexivity.
Defined.

(** The state the lambda works on stays within the contract: the
    distribution keeps [(min, max)] and the engine stays valid. *)
Lemma lambda_range {V : Type} (le : relation V) (representable : V → Prop)
    {disType : Distribution V}
    (contract : UniformContract le representable disType)
    (min max : V) (s : captures) (v : V) (s' : captures) :
  representable min → representable max → le min max →
  param s.1 = (min, max) ∧ Mt19937.valid s.2 →
  lambda s = Some (v, s') →
  (le min v ∧ le v max) ∧ param s'.1 = (min, max) ∧ Mt19937.valid s'.2.
Proof.
  intros Hmin Hmax Hle [Hp Hg]. destruct s as [d g], s' as [d' g'].
  simpl in *. intros E.
  destruct (invoke_spec d g v d' g' Hg E) as (Hp' & Hg' & Hv).
  rewrite Hp in Hv, Hp'. simpl in Hv. by split; [apply Hv|].
Qed.


Lemma fillRnd_length {V : Type} {disType : Distribution V}
    (arr : list V) (min max : V) (seed : Z) (out : list V) :
  fillRnd arr min max seed = Some out → length out = length arr.
Proof.
  rewrite fillRnd_draws.
  destruct (draws _ _ _) as [[vs s']|] eqn:E; [|done].
  intros [= <-]. by eapply draws_length.
Qed.




Lemma draws_samples {V : Type} {disType : Distribution V}
    (n : nat) (dis : dist) (generator : Mt19937.engine) :
  match draws n lambda (dis, generator) with
  | Some (vs, _) => Some vs
  | None => None
  end = samples n dis generator.
Proof.
  revert dis generator. induction n as [|n IH]; intros dis generator;
    cbn [draws samples]; [reflexivity|].
  unfold bind at 1. unfold lambda at 1.
  destruct (invoke dis generator) as [[v [dis' generator']]|]; [|reflexivity].
  unfold bind, ret. rewrite <- IH.
  by destruct (draws n lambda (dis', generator')) as [[vs s']|].
Qed.

(** C5. In-place fill.  The contents [fillRnd] leaves are exactly the
    samples the specification describes: as many as the container has
    elements, position [i] holding the [i]-th draw from one distribution
    object and one engine seeded in the call, each draw continuing from
    the objects as the previous draw left them; in particular the length
    is the one the container had.  The call returns exactly when these
    draws do, which is the case whenever the draws keep within a set of
    states on which the distribution returns. *)
Theorem fillRnd_in_place {V : Type} {disType : Distribution V}
    (arr : list V) (min max : V) (seed : Z) :
  fillRnd arr min max seed
  = samples (length arr) (construct min max) (Mt19937.seed seed)
  ∧ (∀ out, fillRnd arr min max seed = Some out → length out = length arr)
  ∧ (∀ I : dist → Mt19937.engine → Prop,
       I (construct min max) (Mt19937.seed seed) →
       (∀ d g, I d g → ∃ v d' g', invoke d g = Some (v, (d', g')) ∧ I d' g') →
       is_Some (fillRnd arr min max seed)).
Proof.
  split; [|split].
  - rewrite fillRnd_draws. apply draws_samples.
  - intros out. apply fillRnd_length.
  - intros I H0 Hstep. rewrite fillRnd_draws, draws_samples.
    revert H0. generalize (construct min max) (Mt19937.seed seed).
    induction (length arr) as [|n IH]; intros d g HI; cbn [samples];
      [by eexists|].
    destruct (Hstep d g HI) as (v & d' & g' & -> & HI').
    destruct (IH d' g' HI') as [vs ->]. by eexists.
Qed.

Lemma fillRnd_in_place_witness :
  fillRnd (disType := UniformInt.uniform_int_distribution 0)
    [7; 7; 7] 0 255 42
  = samples (disType := UniformInt.uniform_int_distribution 0)
      (length [7; 7; 7]) (construct 0 255) (Mt19937.seed 42)
  ∧ is_Some (fillRnd (disType := UniformInt.uniform_int_distribution 0)
               [7; 7; 7] 0 255 42).
Proof.
  destruct (fillRnd_in_place (disType := UniformInt.uniform_int_distribution 0)
              [7; 7; 7] 0 255 42) as (H1 & _ & H3).
  split; [exact H1|].
  apply (H3 (λ d g, d = UniformInt.Param 0 255 ∧ Mt19937.valid g)).
  - split; [reflexivity | apply seed_valid].
  - intros d g [-> Hg]. cbn [invoke UniformInt.uniform_int_distribution].
    rewrite call_no_rejection;
      [|split; by vm_compute|split; by vm_compute|lia|reflexivity|exact Hg].
    eexists _, _, _. split; [reflexivity|].
    split; [reflexivity | by apply call_valid].
Defined.

(** C6. Default seed: a call that omits the seed is the call with seed
    1337. *)
Theorem fillRnd_default_seed {V : Type} {disType : Distribution V}
    (arr : list V) (min max : V) :
  fillRnd_call arr min max None = fillRnd arr min max 1337
  ∧ fillRnd_call arr min max None = fillRnd_call arr min max (Some 1337).
Proof. by split. Qed.

(** C7. Empty container: [fillRnd] on a container of length zero returns
    and leaves it empty. *)
Theorem fillRnd_empty {V : Type} {disType : Distribution V}
    (min max : V) (seed : Z) :
  fillRnd [] min max seed = Some [].
Proof. reflexivity. Qed.

(** The two integer calls of [main] return without entering the rejection
    loop of the distribution, so with any iteration budget. *)
Lemma main_fill_v_output (fuel : nat) (v : list Z) :
  length v = 10%nat → main_fill_v fuel v = Some [4; 8; 10; 2; 8; 8; 6; 6; 2; 5].
Proof.
  intros H. unfold main_fill_v, fillRnd_call. cbn [default].
  rewrite fillRnd_draws, H. vm_compute. reflexivity.
Qed.

Lemma main_fill_a_output (fuel : nat) (a : list Z) :
  length a = 10%nat → main_fill_a fuel a = Some [2; 5; 7; 2; 2; 2; 3; 2; 4; 9].
Proof.
  intros H. unfold main_fill_a, fillRnd_call. cbn [default].
  rewrite fillRnd_draws, H. vm_compute. reflexivity.
Qed.

(** C8. Seed sensitivity on the calls of [main]: filling ten integers with
    bounds [1, 10] and seed 43 returns ten elements, as does the fill with
    seed 42, and at some position both hold a value and the two values
    differ. *)
Theorem main_seeds_differ (fuel : nat) (v a : list Z) :
  length v = 10%nat → length a = 10%nat →
  ∃ out42 out43,
    main_fill_v fuel v = Some out42
    ∧ main_fill_a fuel a = Some out43
    ∧ length out42 = 10%nat
    ∧ length out43 = 10%nat
    ∧ ∃ (i : nat) (x y : Z),
        out42 !! i = Some x ∧ out43 !! i = Some y ∧ x ≠ y.
Proof.
  intros Hv Ha. eexists _, _.
  split; [by apply main_fill_v_output|].
  split; [by apply main_fill_a_output|].
  split; [reflexivity|]. split; [reflexivity|].
  by exists 0%nat, 4, 2.
Qed.

Lemma main_seeds_differ_witness :
  ∃ out42 out43,
    main_fill_v 0 (replicate 10 0) = Some out42
    ∧ main_fill_a 0 (replicate 10 0) = Some out43
    ∧ length out42 = 10%nat
    ∧ length out43 = 10%nat
    ∧ ∃ (i : nat) (x y : Z),
        out42 !! i = Some x ∧ out43 !! i = Some y ∧ x ≠ y.
Proof. apply main_seeds_differ; reflexivity. Defined.

(** C10. Prefix: with the same bounds and seed, the contents left in a
    shorter container are the first elements of the contents left in a
    longer one. *)
Theorem fillRnd_prefix {V : Type} {disType : Distribution V}
    (arr_n arr_m : list V) (min max : V) (seed : Z) (out_m : list V) :
  (length arr_n ≤ length arr_m)%nat →
  fillRnd arr_m min max seed = Some out_m →
  fillRnd arr_n min max seed = Some (take (length arr_n) out_m).
Proof.
  intros Hle. rewrite !fillRnd_draws.
  destruct (draws (length arr_m) _ _) as [[vs s']|] eqn:E; [|done].
  intros [= <-].
  by destruct (draws_prefix _ _ _ _ _ _ Hle E) as [s'' ->].
Qed.

Lemma fillRnd_prefix_witness :
  fillRnd (disType := UniformInt.uniform_int_distribution 0)
    (replicate 3 0) 1 10 42
  = Some (take (length (replicate 3 0)) [4; 8; 10; 2; 8; 8; 6; 6; 2; 5]).
Proof.
  apply (fillRnd_prefix (replicate 3 0) (replicate 10 0)).
  - simpl. lia.
  - vm_compute. reflexivity.
Defined.

(** ** Claims about the stream helpers *)

Lemma string_app_assoc (s1 s2 s3 : string) :
  (s1 +:+ s2) +:+ s3 = s1 +:+ (s2 +:+ s3).
Proof.
  induction s1 as [|c s1 IH]; [reflexivity|].
  change (String c ((s1 +:+ s2) +:+ s3) = String c (s1 +:+ (s2 +:+ s3))).
  by f_equal.
Qed.

Lemma concat_cons_snoc (sep x : string) (l : list string) (y : string) :
  String.concat sep (x :: l ++ [y])
  = x +:+ sep +:+ String.concat sep (l ++ [y]).
Proof. by destruct l. Qed.

Section DisplayFacts.

Context {T : Type} (show : T → string).

(** What [std::copy] into the [ostream_iterator] followed by [out << x]
    writes, for the elements [l] before the last element [x]. *)
Lemma copy_then_last (l : list T) (x : T) (delim : string)
    (out : Display.ostream) :
  Display.copy show l delim out +:+ show x
  = out +:+ String.concat delim (map show (l ++ [x])).
Proof.
  unfold Display.copy. revert out. induction l as [|y l IH]; intros out.
  - reflexivity.
  - cbn [foldl]. rewrite IH. unfold Display.ostream_iterator_assign.
    cbn [app map]. rewrite map_app. cbn [map].
    rewrite concat_cons_snoc. by rewrite !string_app_assoc.
Qed.

Lemma operator_lshift_array_snoc (out : Display.ostream) (l : list T) (x : T) :
  Display.operator_lshift_array show (length (l ++ [x])) out (l ++ [x])
  = out +:+ Display.bracketed show (l ++ [x]).
Proof.
  unfold Display.operator_lshift_array, Display.bracketed.
  rewrite length_app. cbn [length].
  replace (length l + 1 - 1)%nat with (length l) by lia.
  replace (length l + 1 =? 0)%nat with false
    by (symmetry; apply Nat.eqb_neq; lia).
  cbn [negb]. rewrite take_app_length, list_lookup_middle by done.
  rewrite copy_then_last. by rewrite !string_app_assoc.
Qed.

Lemma operator_lshift_vector_array (out : Display.ostream) (v : list T) :
  Display.operator_lshift_vector show out v
  = Display.operator_lshift_array show (length v) out v.
Proof. reflexivity. Qed.

End DisplayFacts.

(** C9, as stated, fails on the empty sequence: the helper writes nothing,
    the bracketed rendering of the empty sequence is ["[]"]. *)
Lemma operator_lshift_empty_not_bracketed :
  Display.operator_lshift_vector (pretty : Z → string) "" []
  ≠ "" +:+ Display.bracketed (pretty : Z → string) [].
Proof. vm_compute. discriminate. Qed.

(** C9, amended. For a sequence that is not empty both helpers append to
    the stream the elements in order, separated by [", "], between [[] and
    []]; for the empty sequence they leave the stream as it is.  The
    sequence is only read. *)
Theorem operator_lshift_spec {T : Type} (show : T → string)
    (out : Display.ostream) (v : list T) :
  Display.operator_lshift_vector show out v
  = match v with
    | [] => out
    | _ :: _ => out +:+ Display.bracketed show v
    end
  ∧ Display.operator_lshift_array show (length v) out v
    = match v with
      | [] => out
      | _ :: _ => out +:+ Display.bracketed show v
      end.
Proof.
  rewrite operator_lshift_vector_array.
  assert (Display.operator_lshift_array show (length v) out v
          = match v with
            | [] => out
            | _ :: _ => out +:+ Display.bracketed show v
            end) as H; [|by split].
  destruct v as [|y v]; [reflexivity|].
  destruct (exists_last (l := y :: v)) as (l & x & ->); [done|].
  apply operator_lshift_array_snoc.
Qed.

(** The text [main] writes for its first container, before [std::endl]. *)
Example main_line_v :
  Display.operator_lshift_vector (pretty : Z → string) ""
    [4; 8; 10; 2; 8; 8; 6; 6; 2; 5]
  = "[4, 8, 10, 2, 8, 8, 6, 6, 2, 5]".
Proof. by vm_compute. Qed.

(** ** Claims about the type-level part *)

(** C3. The restriction on [fillRnd] does not keep the template from being
    chosen: for [std::vector<std::string>], whose element type is not
    arithmetic, and for a class with a [value_type] but neither [begin] nor
    [end], the condition is false, yet the default template argument is the
    well-formed type [std::enable_if<false, void>] (only its member [type]
    is missing), so [fillRnd] is viable for both. *)
Theorem fillRnd_restriction_inert :
  let T1 := Traits.std_vector Traits.std_string in
  let T2 := Traits.ClassType "S" (Some (Traits.Arithmetic Traits.Int)) false false in
  (Traits.is_arithmetic Traits.std_string = false
   ∧ Traits.fillRnd_default_argument T1 = Some (Traits.EnableIf false Traits.Void)
   ∧ Traits.fillRnd_viable T1 = true)
  ∧ (Traits.is_iterable T2 = false
     ∧ Traits.fillRnd_default_argument T2 = Some (Traits.EnableIf false Traits.Void)
     ∧ Traits.fillRnd_viable T2 = true)
  ∧ Traits.member_type (Traits.EnableIf false Traits.Void) = None.
Proof. repeat split. Qed.

(** The restriction has no effect at all: [fillRnd] is viable exactly for
    the types that have a member [value_type] other than [void], whatever
    the value of the condition. *)
Lemma fillRnd_viable_iff (T : Traits.type) :
  Traits.fillRnd_viable T = true
  ↔ ∃ vt, Traits.value_type T = Some vt ∧ vt ≠ Traits.Void.
Proof.
  unfold Traits.fillRnd_viable, Traits.fillRnd_default_argument,
    Traits.fillRnd_parameters.
  destruct (Traits.value_type T) as [vt|]; [|split; [done | by intros (? & ? & ?)]].
  split.
  - intros H. exists vt. split; [done|]. by intros ->.
  - intros (vt' & [= <-] & Hv). by destruct vt.
Qed.

(** *** Both bounds of the integer distribution are reached *)

Lemma call_engine_at (x : Z) :
  Mt19937.call (engine_at x)
  = (Mt19937.temper x,
     {| Mt19937.M_x := replicate Mt19937.state_size x; Mt19937.M_p := 1 |}).
Proof. reflexivity. Qed.

Lemma engine_at_valid (x : Z) : Mt19937.word x → Mt19937.valid (engine_at x).
Proof.
  intros Hx. unfold Mt19937.valid, engine_at.
  cbn [Mt19937.M_x Mt19937.M_p]. split; [apply length_replicate|].
  split; [by apply Forall_replicate | apply Nat.le_0_l].
Qed.

(** An engine whose next output is [z], for the three outputs needed. *)
Lemma engine_with_output (z : Z) :
  z = 0 ∨ z = 1 ∨ z = 2 ^ 32 - 1 →
  ∃ g g1, Mt19937.valid g ∧ Mt19937.call g = (z, g1).
Proof.
  intros [->|[->| ->]].
  - exists (engine_at 0). eexists. split; [by apply engine_at_valid|].
    by rewrite call_engine_at.
  - exists (engine_at 270681289). eexists.
    split; [by apply engine_at_valid|]. by rewrite call_engine_at.
  - exists (engine_at 316513203). eexists.
    split; [by apply engine_at_valid|]. by rewrite call_engine_at.
Qed.

Lemma S_nd_at_one (fuel : nat) (range : Z) (g g1 : Mt19937.engine) :
  0 < range < 2 ^ 32 → Mt19937.call g = (1, g1) →
  UniformInt.S_nd fuel range g = Some (0, g1).
Proof.
  intros Hr Hc. unfold UniformInt.S_nd. rewrite Hc.
  rewrite (wrap_small 64 1) by lia. rewrite (wrap_small 64 range) by lia.
  rewrite Z.mul_1_l. rewrite (wrap_small 64 range) by lia.
  rewrite (wrap_small 32 range) by lia. rewrite Z.ltb_irrefl.
  rewrite Z.shiftr_div_pow2, Z.div_small by lia. by rewrite wrap_small by lia.
Qed.

Lemma S_nd_at_max (fuel : nat) (range : Z) (g g1 : Mt19937.engine) :
  0 < range < 2 ^ 32 → Mt19937.call g = (2 ^ 32 - 1, g1) →
  UniformInt.S_nd fuel range g = Some (range - 1, g1).
Proof.
  intros Hr Hc. unfold UniformInt.S_nd. rewrite Hc.
  rewrite (wrap_small 64 (2 ^ 32 - 1)) by lia.
  rewrite (wrap_small 64 range) by lia.
  assert ((2 ^ 32 - 1) * range = (2 ^ 32 - range) + (range - 1) * 2 ^ 32)
    as Hprod by lia.
  rewrite (wrap_small 64 ((2 ^ 32 - 1) * range)) by nia.
  assert (wrap 32 ((2 ^ 32 - 1) * range) = 2 ^ 32 - range) as Hlow.
  { unfold wrap. rewrite Hprod, Z_mod_plus_full. apply Z.mod_small. lia. }
  assert (wrap 32 (Z.shiftr ((2 ^ 32 - 1) * range) 32) = range - 1) as Hres.
  { rewrite Z.shiftr_div_pow2 by lia.
    rewrite Hprod, Z_div_plus_full, Z.div_small by lia.
    rewrite wrap_small; lia. }
  assert (wrap 32 (- range) = 2 ^ 32 - range) as Hneg.
  { unfold wrap. rewrite <- (Z_mod_plus_full (- range) 1 (2 ^ 32)).
    rewrite Z.mod_small; lia. }
  rewrite Hlow. destruct (_ <? _); [|by rewrite Hres].
  assert (UniformInt.S_nd_loop fuel range
            (wrap 32 (- range) mod range) ((2 ^ 32 - 1) * range) g1
          = Some ((2 ^ 32 - 1) * range, g1)) as ->; [|by rewrite Hres].
  assert ((wrap 32 ((2 ^ 32 - 1) * range) <? wrap 32 (- range) mod range)
          = false) as Ht.
  { rewrite Hlow, Hneg. apply Z.ltb_ge. apply Z.mod_le; lia. }
  destruct fuel; cbn [UniformInt.S_nd_loop]; by rewrite Ht.
Qed.

Lemma integral_call_endpoints (T : UniformIntegral.int_type) (fuel : nat)
    (a b : Z) :
  UniformIntegral.well_formed T →
  UniformIntegral.is_value T a → UniformIntegral.is_value T b → a ≤ b →
  b - a < 2 ^ 32 →
  (∃ g g', Mt19937.valid g
           ∧ UniformIntegral.call fuel T (UniformIntegral.Param a b) g
             = Some (a, g'))
  ∧ (∃ g g', Mt19937.valid g
             ∧ UniformIntegral.call fuel T (UniformIntegral.Param a b) g
               = Some (b, g')).
Proof.
  intros HT Ha Hb Hab Hw.
  destruct (integral_urange T a b HT Ha Hb Hab) as [Hur _].
  assert (∀ g, UniformIntegral.call fuel T (UniformIntegral.Param a b) g
               = match
                   (if b - a <? 4294967295
                    then UniformInt.S_nd fuel (b - a + 1) g
                    else let '(z, g1) := Mt19937.call g in
                         Some (wrap 64 (wrap 64 z - 0), g1))
                 with
                 | Some (r, g1) =>
                     Some (UniformIntegral.to_T T (wrap 64 (r + wrap 64 a)), g1)
                 | None => None
                 end) as Hcall.
  { intros g.
    destruct fuel;
      cbn [UniformIntegral.call UniformIntegral.M_a UniformIntegral.M_b];
      change (wrap UniformIntegral.uctype_bits Mt19937.min) with 0;
      change (wrap UniformIntegral.uctype_bits Mt19937.max) with 4294967295;
      change (wrap UniformIntegral.uctype_bits (4294967295 - 0))
        with 4294967295;
      change UniformIntegral.uctype_bits with 64;
      rewrite Hur;
      (destruct (b - a <? 4294967295) eqn:E1;
       [apply Z.ltb_lt in E1;
        rewrite (wrap_small 64 (b - a + 1)) by lia;
        by rewrite (wrap_small 32 (b - a + 1)) by lia
       |apply Z.ltb_ge in E1;
        by replace (4294967295 <? b - a) with false
          by (symmetry; apply Z.ltb_ge; lia)]). }
  assert (∀ r, 0 ≤ r ≤ b - a →
               UniformIntegral.to_T T (wrap 64 (r + wrap 64 a)) = a + r) as Hfin.
  { intros r Hr. rewrite to_T_wrap_add; [lia|done|].
    unfold UniformIntegral.is_value in *. lia. }
  destruct (b - a <? 4294967295) eqn:E1.
  - apply Z.ltb_lt in E1. split.
    + destruct (engine_with_output 1) as (g & g1 & Hg & Hc); [tauto|].
      exists g, g1. split; [done|]. rewrite Hcall.
      rewrite (S_nd_at_one fuel (b - a + 1) g g1) by (done || lia).
      rewrite Hfin by lia. do 2 f_equal. lia.
    + destruct (engine_with_output (2 ^ 32 - 1)) as (g & g1 & Hg & Hc);
        [tauto|].
      exists g, g1. split; [done|]. rewrite Hcall.
      rewrite (S_nd_at_max fuel (b - a + 1) g g1) by (done || lia).
      rewrite Hfin by lia. do 2 f_equal. lia.
  - apply Z.ltb_ge in E1. split.
    + destruct (engine_with_output 0) as (g & g1 & Hg & Hc); [tauto|].
      exists g, g1. split; [done|]. rewrite Hcall, Hc.
      change (wrap 64 (wrap 64 0 - 0)) with 0.
      rewrite Hfin by lia. do 2 f_equal. lia.
    + destruct (engine_with_output (2 ^ 32 - 1)) as (g & g1 & Hg & Hc);
        [tauto|].
      exists g, g1. split; [done|]. rewrite Hcall, Hc.
      change (wrap 64 (wrap 64 (2 ^ 32 - 1) - 0)) with 4294967295.
      rewrite Hfin by lia. do 2 f_equal. lia.
Qed.

Lemma int_layout_well_formed (t : Traits.arithmetic)
    (T : UniformIntegral.int_type) :
  Instantiation.int_layout t = Some T → UniformIntegral.well_formed T.
Proof. destruct t; intros [= <-]; split; by vm_compute. Qed.

(** C4. Dispatch.  Which distribution [fillRnd] samples from is decided
    by the element type alone.  For an integral element type [disType] is
    [std::uniform_int_distribution] of that type, and [fillRnd<T>] is the
    fill with the integer distribution, whose results lie between the two
    bounds and reach both of them (reaching shown for bounds at most
    [2^32 - 1] apart, where one output of the engine decides the result).
    For a floating-point element type [disType] is
    [std::uniform_real_distribution] of that type, and [fillRnd<T>] is the
    fill with the real distribution on the format of the type. *)
Theorem disType_dispatch (fuel : nat) (t : Traits.arithmetic) :
  (Traits.is_integral (Traits.Arithmetic t) = true →
   Traits.disType (Traits.Arithmetic t)
   = Traits.uniform_int_distribution (Traits.Arithmetic t))
  ∧ (Traits.is_floating_point (Traits.Arithmetic t) = true →
     Traits.disType (Traits.Arithmetic t)
     = Traits.uniform_real_distribution (Traits.Arithmetic t))
  ∧ (∀ T, Instantiation.int_layout t = Some T →
       Traits.is_integral (Traits.Arithmetic t) = true
       ∧ Instantiation.instantiate fuel (Traits.Arithmetic t)
         = Some (Instantiation.Specialization
                   (Instantiation.MkInstance Z
                      (UniformIntegral.uniform_int_distribution T fuel))
                   (fillRnd
                      (disType := UniformIntegral.uniform_int_distribution T fuel)))
       ∧ ∀ a b,
           UniformIntegral.is_value T a → UniformIntegral.is_value T b →
           a ≤ b →
           (∀ g v g', Mt19937.valid g →
              UniformIntegral.call fuel T (UniformIntegral.Param a b) g
              = Some (v, g') → a ≤ v ≤ b)
           ∧ (b - a < 2 ^ 32 →
              (∃ g g', Mt19937.valid g
                 ∧ UniformIntegral.call fuel T (UniformIntegral.Param a b) g
                   = Some (a, g'))
              ∧ (∃ g g', Mt19937.valid g
                   ∧ UniformIntegral.call fuel T (UniformIntegral.Param a b) g
                     = Some (b, g'))))
  ∧ (∀ F, Instantiation.float_format t = Some F →
       Traits.is_floating_point (Traits.Arithmetic t) = true
       ∧ Instantiation.instantiate fuel (Traits.Arithmetic t)
         = Some (Instantiation.Specialization
                   (Instantiation.MkInstance spec_float
                      (UniformReal.uniform_real_distribution F))
                   (fillRnd
                      (disType := UniformReal.uniform_real_distribution F)))).
Proof.
  split; [|split; [|split]].
  - intros H. unfold Traits.disType, Traits.conditional. by rewrite H.
  - intros H. by destruct t.
  - intros T HT. pose proof (int_layout_well_formed t T HT) as Hwf.
    split; [by destruct t|]. split.
    + unfold Instantiation.instantiate, Instantiation.disType.
      destruct t; try discriminate HT; injection HT as <-; reflexivity.
    + intros a b Ha Hb Hab. split.
      * intros g v g' Hg Hc.
        destruct (uniform_integral_call_spec T fuel _ g v g' Hg Hc) as [_ Hv].
        by apply Hv.
      * intros Hw. by apply integral_call_endpoints.
  - intros F HF. split; [by destruct t|].
    unfold Instantiation.instantiate, Instantiation.disType.
    destruct t; try discriminate HF; injection HF as <-; reflexivity.
Qed.

Lemma disType_dispatch_witness :
  Instantiation.instantiate 0 (Traits.Arithmetic Traits.Int)
  = Some (Instantiation.Specialization
            (Instantiation.MkInstance Z
               (UniformIntegral.uniform_int_distribution
                  (UniformIntegral.IntType 32 true) 0))
            (fillRnd
               (disType := UniformIntegral.uniform_int_distribution
                             (UniformIntegral.IntType 32 true) 0)))
  ∧ Instantiation.instantiate 0 (Traits.Arithmetic Traits.Float)
    = Some (Instantiation.Specialization
              (Instantiation.MkInstance spec_float
                 (UniformReal.uniform_real_distribution
                    (UniformReal.Format 24 128)))
              (fillRnd
                 (disType := UniformReal.uniform_real_distribution
                               (UniformReal.Format 24 128)))).
Proof.
  destruct (disType_dispatch 0 Traits.Int) as (_ & _ & Hint & _).
  destruct (disType_dispatch 0 Traits.Float) as (_ & _ & _ & Hfloat).
  split.
  - by destruct (Hint _ eq_refl) as (_ & H & _).
  - by destruct (Hfloat _ eq_refl) as (_ & H).
Defined.

(** * Further properties *)

(** ** fillRnd, for any distribution *)

(** Refilling: the engine is local to a call, so a second call with the
    same bounds and seed on the container just filled reproduces the same
    contents instead of continuing the sequence. *)
Theorem fillRnd_refill {V : Type} {disType : Distribution V}
    (arr : list V) (min max : V) (seed : Z) (out : list V) :
  fillRnd arr min max seed = Some out →
  fillRnd out min max seed = Some out.
Proof.
  rewrite !fillRnd_draws.
  destruct (draws (length arr) _ _) as [[vs s']|] eqn:E; [|done].
  intros [= <-]. by rewrite (draws_length _ _ _ _ _ E), E.
Qed.

Lemma fillRnd_refill_witness :
  fillRnd (disType := UniformInt.uniform_int_distribution 0)
    [4; 8; 10; 2; 8; 8; 6; 6; 2; 5] 1 10 42
  = Some [4; 8; 10; 2; 8; 8; 6; 6; 2; 5].
Proof.
  apply (fillRnd_refill (replicate 10 0)). vm_compute. reflexivity.
Defined.

(** ** fillRnd on [int] containers with the libstdc++ distribution *)

Lemma calls_valid (k : nat) (g : Mt19937.engine) :
  Mt19937.valid g →
  Forall Mt19937.word (Mt19937.calls k g).1
  ∧ length (Mt19937.calls k g).1 = k
  ∧ Mt19937.valid (Mt19937.calls k g).2.
Proof.
  revert g. induction k as [|k IH]; intros g Hg; cbn [Mt19937.calls].
  - split; [constructor | split; [reflexivity | exact Hg]].
  - destruct (call_valid g Hg) as [Hz Hg1].
    destruct (Mt19937.call g) as [z g1]. cbn [fst snd] in Hz, Hg1.
    destruct (IH g1 Hg1) as (H1 & H2 & H3).
    destruct (Mt19937.calls k g1) as [zs g2]. cbn [fst snd] in *.
    split; [by constructor|]. split; [cbn [length]; by f_equal | done].
Qed.

Lemma draws_no_rejection (fuel : nat) (a b : Z) (k : nat) (g : Mt19937.engine) :
  UniformInt.is_int a → UniformInt.is_int b → a ≤ b →
  2 ^ 32 mod (b - a + 1) = 0 → Mt19937.valid g →
  draws k (lambda (disType := UniformInt.uniform_int_distribution fuel))
    (UniformInt.Param a b, g)
  = Some (map (λ z, a + z * (b - a + 1) / 2 ^ 32) (Mt19937.calls k g).1,
          (UniformInt.Param a b, (Mt19937.calls k g).2)).
Proof.
  intros Ha Hb Hab Hdiv. revert g.
  induction k as [|k IH]; intros g Hg; cbn [draws Mt19937.calls].
  - reflexivity.
  - unfold bind at 1. unfold lambda at 1.
    cbn [invoke UniformInt.uniform_int_distribution].
    rewrite call_no_rejection by done.
    destruct (call_valid g Hg) as [_ Hg1].
    destruct (Mt19937.call g) as [z g1]. cbn [fst snd] in *.
    unfold bind. rewrite (IH g1 Hg1).
    destruct (Mt19937.calls k g1) as [zs g2]. reflexivity.
Qed.

(** Closed form without rejection: when the number of values between
    [min] and [max] divides [2^32] (a power of two, the whole range of
    [int] included), [fillRnd] returns with any iteration budget, and
    element [i] is [min] plus the upper half of the product of the [i]-th
    output of the engine and that number. *)
Theorem fillRnd_int_no_rejection (fuel : nat) (arr : list Z) (min max seed : Z) :
  UniformInt.is_int min → UniformInt.is_int max → min ≤ max →
  2 ^ 32 mod (max - min + 1) = 0 →
  fillRnd (disType := UniformInt.uniform_int_distribution fuel) arr min max seed
  = Some (map (λ z, min + z * (max - min + 1) / 2 ^ 32)
            (Mt19937.calls (length arr) (Mt19937.seed seed)).1).
Proof.
  intros Hmin Hmax Hle Hdiv. rewrite fillRnd_draws.
  cbn [construct UniformInt.uniform_int_distribution].
  by rewrite draws_no_rejection by (done || apply seed_valid).
Qed.

Lemma fillRnd_int_no_rejection_witness :
  fillRnd (disType := UniformInt.uniform_int_distribution 0)
    (replicate 4 0) 0 255 42
  = Some (map (λ z, 0 + z * (255 - 0 + 1) / 2 ^ 32)
            (Mt19937.calls (length (replicate 4 0)) (Mt19937.seed 42)).1).
Proof.
  apply fillRnd_int_no_rejection.
  - split; by vm_compute.
  - split; by vm_compute.
  - lia.
  - reflexivity.
Defined.

(** Degenerate range: with [min = max] every call returns, and the
    container holds [min] at every position. *)
Theorem fillRnd_int_constant (fuel : nat) (arr : list Z) (min seed : Z) :
  UniformInt.is_int min →
  fillRnd (disType := UniformInt.uniform_int_distribution fuel) arr min min seed
  = Some (replicate (length arr) min).
Proof.
  intros Hmin. rewrite fillRnd_draws.
  cbn [construct UniformInt.uniform_int_distribution].
  rewrite draws_no_rejection;
    [|done|done|lia|by replace (min - min + 1) with 1 by lia|apply seed_valid].
  destruct (calls_valid (length arr) (Mt19937.seed seed) (seed_valid seed))
    as (Hw & Hl & _).
  f_equal. rewrite <- Hl at 2. clear Hl.
  induction Hw as [|z zs Hz Hzs IH]; [done|].
  cbn [map length replicate]. f_equal; [|exact IH].
  unfold Mt19937.word, Mt19937.w in Hz.
  replace (min - min + 1) with 1 by lia.
  rewrite Z.mul_1_r, Z.div_small by lia. lia.
Qed.

Lemma fillRnd_int_constant_witness :
  fillRnd (disType := UniformInt.uniform_int_distribution 0) [1; 2; 3] 7 7 42
  = Some (replicate (length [1; 2; 3]) 7).
Proof. apply fillRnd_int_constant. split; by vm_compute. Defined.

(** Range containment for the libstdc++ instance, with no assumption on
    the distribution: for [int] bounds [min ≤ max] and any iteration
    budget, a call that returns leaves as many elements as there were,
    each between [min] and [max]. *)
Theorem fillRnd_int_range (fuel : nat) (arr : list Z) (min max seed : Z)
    (out : list Z) :
  UniformInt.is_int min → UniformInt.is_int max → min ≤ max →
  fillRnd (disType := UniformInt.uniform_int_distribution fuel) arr min max seed
  = Some out →
  length out = length arr ∧ Forall (λ e, min ≤ e ≤ max) out.
Proof.
  intros Hmin Hmax Hle. rewrite fillRnd_draws.
  destruct (draws _ _ _) as [[vs s']|] eqn:E; [|done]. intros [= <-].
  split; [by eapply draws_length|].
  eapply (draws_Forall _
            (λ s : captures (disType := UniformInt.uniform_int_distribution fuel),
               param (UniformContract := uniform_int_contract fuel) s.1
               = (min, max) ∧ Mt19937.valid s.2));
    [| |exact E].
  - intros s v s1 Hs Hl.
    by eapply (lambda_range Z.le UniformInt.is_int (uniform_int_contract fuel)).
  - split; [apply param_construct | apply seed_valid].
Qed.

Lemma fillRnd_int_range_witness :
  ∃ out,
    fillRnd (disType := UniformInt.uniform_int_distribution 0)
      (replicate 6 0) (-3) 3 7 = Some out
    ∧ length out = length (replicate 6 0)
    ∧ Forall (λ e, -3 ≤ e ≤ 3) out.
Proof.
  eexists. split; [vm_compute; reflexivity|].
  apply (fillRnd_int_range 0 (replicate 6 0) (-3) 3 7).
  - split; by vm_compute.
  - split; by vm_compute.
  - lia.
  - vm_compute. reflexivity.
Defined.

(** ** The stream helpers *)

Lemma string_app_inv_nil (out s : string) : out +:+ s = out → s = "".
Proof.
  induction out as [|c out IH]; [done|].
  change (String c (out +:+ s) = String c out → s = "").
  intros [= H]. by apply IH.
Qed.

Lemma operator_lshift_vector_cases {T : Type} (show : T → string)
    (out : Display.ostream) (v : list T) :
  Display.operator_lshift_vector show out v
  = match v with
    | [] => out
    | _ :: _ => out +:+ Display.bracketed show v
    end.
Proof.
  rewrite operator_lshift_vector_array.
  destruct v as [|y v]; [reflexivity|].
  destruct (exists_last (l := y :: v)) as (l & x & ->); [done|].
  apply operator_lshift_array_snoc.
Qed.

(** The helper leaves the stream as it is exactly when the sequence is
    empty: a sequence with elements always writes something, so the empty
    sequence is the only one whose output cannot be seen. *)
Theorem operator_lshift_silent_iff_empty {T : Type} (show : T → string)
    (out : Display.ostream) (v : list T) :
  (Display.operator_lshift_vector show out v = out ↔ v = [])
  ∧ (Display.operator_lshift_array show (length v) out v = out ↔ v = []).
Proof.
  rewrite <- operator_lshift_vector_array, operator_lshift_vector_cases.
  assert (match v with
          | [] => out
          | _ :: _ => out +:+ Display.bracketed show v
          end = out ↔ v = []) as H; [|by split].
  destruct v as [|y v]; [done|]. split; [|done].
  intros H. apply string_app_inv_nil in H. discriminate H.
Qed.

(** ** main *)

(** What [main] writes: whatever [a] and [b] hold at first, the two lines
    of the integer containers are fixed, the third line is the bracketed
    [float] container after its fill with the default seed, each line ends
    with a newline, and the exit status is 0.  [main] returns exactly when
    the fill of [b] does. *)
Theorem main_output {F : Type} {real : Distribution F} (of_int : Z → F)
    (show_float : F → string) (fuel : nat) (a : list Z) (b : list F)
    (cout : Display.ostream) :
  length a = 10%nat → length b = 1%nat →
  main of_int show_float fuel a b cout
  = (out ← fillRnd b (of_int 1) (of_int 100) 1337;
     Some (cout
           +:+ endl "[4, 8, 10, 2, 8, 8, 6, 6, 2, 5]"
           +:+ endl "[2, 5, 7, 2, 2, 2, 3, 2, 4, 9]"
           +:+ endl (Display.bracketed show_float out), 0)).
Proof.
  intros Ha Hb. unfold main.
  rewrite (main_fill_v_output fuel (replicate 10 0) eq_refl).
  rewrite (main_fill_a_output fuel a Ha).
  cbn [mbind option_bind]. unfold fillRnd_call. cbn [default].
  change default_seed with 1337.
  destruct (fillRnd b _ _ 1337) as [out|] eqn:E; [|reflexivity].
  cbn [mbind option_bind]. do 2 f_equal.
  apply fillRnd_length in E. rewrite Hb in E.
  destruct out as [|x [|? ?]]; [done| |done].
  rewrite <- (operator_lshift_vector_array show_float _ [x]).
  rewrite <- (operator_lshift_vector_array pretty _
                [2; 5; 7; 2; 2; 2; 3; 2; 4; 9]).
  rewrite !operator_lshift_vector_cases.
  change (Display.bracketed pretty [4; 8; 10; 2; 8; 8; 6; 6; 2; 5])
    with "[4, 8, 10, 2, 8, 8, 6, 6, 2, 5]".
  change (Display.bracketed pretty [2; 5; 7; 2; 2; 2; 3; 2; 4; 9])
    with "[2, 5, 7, 2, 2, 2, 3, 2, 4, 9]".
  unfold endl. by rewrite !string_app_assoc.
Qed.

Lemma main_output_witness :
  main (real := UniformInt.uniform_int_distribution 0) id pretty 0
    (replicate 10 0) [0] ""
  = (out ← fillRnd (disType := UniformInt.uniform_int_distribution 0)
             [0] (id 1) (id 100) 1337;
     Some (""
           +:+ endl "[4, 8, 10, 2, 8, 8, 6, 6, 2, 5]"
           +:+ endl "[2, 5, 7, 2, 2, 2, 3, 2, 4, 9]"
           +:+ endl (Display.bracketed pretty out), 0)).
Proof. apply main_output; reflexivity. Defined.

(** The third call of [main]: whatever the one-element [float] array
    holds, the fill with bounds 1, 100 and the default seed returns, and
    leaves one value, [14124551 * 2^-19] (about 26.94), between the
    bounds. *)
Theorem main_fill_b_output (b : list spec_float) :
  length b = 1%nat →
  let one := UniformReal.of_Z UniformReal.binary32 1 in
  let hundred := UniformReal.of_Z UniformReal.binary32 100 in
  let x := S754_finite false 14124551 (-19) in
  fillRnd_call
    (disType := UniformReal.uniform_real_distribution UniformReal.binary32)
    b one hundred None = Some [x]
  ∧ SFleb one x = true ∧ SFleb x hundred = true.
Proof.
  intros Hb. cbv zeta. split; [|by vm_compute].
  unfold fillRnd_call. cbn [default].
  rewrite fillRnd_draws, Hb. by vm_compute.
Qed.

Lemma main_fill_b_output_witness :
  let one := UniformReal.of_Z UniformReal.binary32 1 in
  let hundred := UniformReal.of_Z UniformReal.binary32 100 in
  let x := S754_finite false 14124551 (-19) in
  fillRnd_call
    (disType := UniformReal.uniform_real_distribution UniformReal.binary32)
    [S754_nan] one hundred None = Some [x]
  ∧ SFleb one x = true ∧ SFleb x hundred = true.
Proof. apply main_fill_b_output. reflexivity. Defined.
